(** * Row viewer: URL detection, record views and navigation

    A shallow embedding of the row-navigation core of the spreadsheet
    row viewers: [xlsx_row_viewer.py] (terminal front end) and
    [xlsx_row_viewer_gui.py] (desktop front end), and of the column
    printer [csv_printer.py].

    Python [str] values are modelled as lists of 8-bit code points
    (Latin-1).  On that range the character classes used below coincide
    with what Python computes: [str.isspace] and the regex class [\s],
    the regex class [\w], [str.lower], and the case folding that the
    regex flag [(?i)] applies to the letters of the pattern. *)

From Stdlib Require Import List Ascii String ZArith NArith Bool Lia.
From Stdlib Require Import DecimalString DecimalZ Sorted.
Import ListNotations.


(** ** Characters and strings *)

Module Py.

Definition str := list ascii.

(** A string literal of the source. *)
Definition lit (s : string) : str := list_ascii_of_string s.

Definition ord (c : ascii) : N := N_of_ascii c.

Definition in_range (lo hi : N) (c : ascii) : bool :=
  ((lo <=? ord c) && (ord c <=? hi))%N.

(** [str.isspace] on one character; also the regex class [\s]. *)
Definition isspace (c : ascii) : bool :=
  in_range 9 13 c || in_range 28 32 c || (ord c =? 133)%N || (ord c =? 160)%N.

(** The regex class [\w]: alphanumeric characters and the underscore. *)
Definition isword (c : ascii) : bool :=
  in_range 48 57 c || in_range 65 90 c || (ord c =? 95)%N || in_range 97 122 c
  || (ord c =? 170)%N || in_range 178 179 c || (ord c =? 181)%N
  || in_range 185 186 c || in_range 188 190 c
  || in_range 192 214 c || in_range 216 246 c || in_range 248 255 c.

(** [str.lower] on one character. *)
Definition lower (c : ascii) : ascii :=
  if in_range 65 90 c || (in_range 192 222 c && negb (ord c =? 215)%N)
  then ascii_of_N (ord c + 32)
  else c.

Definition lower_str (s : str) : str := map lower s.

(** [s.startswith(p)] *)
Fixpoint startswith (p s : str) : bool :=
  match p, s with
  | [], _ => true
  | a :: p', c :: s' => Ascii.eqb a c && startswith p' s'
  | _ :: _, [] => false
  end.

Fixpoint lstrip (s : str) : str :=
  match s with
  | c :: s' => if isspace c then lstrip s' else s
  | [] => []
  end.

Definition rstrip (s : str) : str := rev (lstrip (rev s)).

(** [s.strip()] *)
Definition strip (s : str) : str := rstrip (lstrip s).

(** A text made of white space only. *)
Definition spaces (ws : str) : Prop := Forall (fun c => isspace c = true) ws.

(** Truth value of a string or of a list: the empty one is false. *)
Definition truthy {A : Type} (s : list A) : bool :=
  match s with [] => false | _ :: _ => true end.

(** Decimal rendering of an integer, [str(n)] for an [int]. *)
Definition str_of_int (z : Z) : str :=
  list_ascii_of_string (NilZero.string_of_int (Z.to_int z)).

End Py.

Import Py.

(** ** The URL pattern

    [URL_RE] is the compiled pattern
    [(?i)\bhttps?://C+|www\.C+], where [C] stands for the negated class
    of the source: any character that is neither white space, nor an
    angle bracket, nor a double quote.

    The pattern is an alternation of two branches; the word boundary
    [\b] belongs to the first branch only.  A matcher takes the input at
    the current position and returns the matched text together with the
    rest of the input. *)

Module Re.

Definition matcher := str -> option (str * str).

(** One literal of the pattern under the flag [(?i)]. *)
Definition lit_i (p c : ascii) : bool := Ascii.eqb (lower c) p.

(** A run of literals. *)
Fixpoint lits (p : str) (s : str) : option (str * str) :=
  match p, s with
  | [], _ => Some ([], s)
  | a :: p', c :: s' =>
      if lit_i a c then
        match lits p' s' with
        | Some (m, r) => Some (c :: m, r)
        | None => None
        end
      else None
  | _ :: _, [] => None
  end.

(** The class [C]. *)
Definition url_char (c : ascii) : bool :=
  negb (isspace c || Ascii.eqb c "<" || Ascii.eqb c ">" || Ascii.eqb c "034").

(** Greedy [C*]: the longest run of class characters. *)
Fixpoint url_chars (s : str) : str * str :=
  match s with
  | c :: s' =>
      if url_char c then let (m, r) := url_chars s' in (c :: m, r)
      else ([], s)
  | [] => ([], [])
  end.

(** Greedy [C+]; nothing follows it in either branch, so the
    longest run is the match. *)
Definition url_chars1 (s : str) : option (str * str) :=
  match url_chars s with
  | ([], _) => None
  | (m, r) => Some (m, r)
  end.

(** Concatenation of two matchers. *)
Definition seq (m1 m2 : matcher) : matcher := fun s =>
  match m1 s with
  | Some (a, r) =>
      match m2 r with
      | Some (b, r') => Some (a ++ b, r')
      | None => None
      end
  | None => None
  end.

(** Greedy [m1?] followed by [m2]: first with [m1], then without. *)
Definition opt_then (m1 m2 : matcher) : matcher := fun s =>
  match seq m1 m2 s with
  | Some res => Some res
  | None => m2 s
  end.

Definition word_before (prev : option ascii) : bool :=
  match prev with Some c => isword c | None => false end.

Definition word_after (s : str) : bool :=
  match s with c :: _ => isword c | [] => false end.

(** [\b]: exactly one of the two neighbours is a word character. *)
Definition word_boundary (prev : option ascii) (s : str) : bool :=
  xorb (word_before prev) (word_after s).

(** First branch: [\bhttps?://C+]. *)
Definition branch_http (prev : option ascii) : matcher := fun s =>
  if word_boundary prev s then
    seq (lits (lit "http"))
        (opt_then (lits (lit "s")) (seq (lits (lit "://")) url_chars1)) s
  else None.

(** Second branch: [www\.C+]. *)
Definition branch_www : matcher :=
  seq (lits (lit "www.")) url_chars1.

(** The whole pattern at one position; [prev] is the character before
    the position, if any. *)
Definition match_here (prev : option ascii) (s : str) : option str :=
  match branch_http prev s with
  | Some (m, _) => Some m
  | None =>
      match branch_www s with
      | Some (m, _) => Some m
      | None => None
      end
  end.

(** [URL_RE.search]: positions are tried from left to right, the
    position at the end of the input included. *)
Fixpoint search_from (prev : option ascii) (s : str) : option str :=
  match match_here prev s with
  | Some m => Some m
  | None =>
      match s with
      | c :: s' => search_from (Some c) s'
      | [] => None
      end
  end.

(** [URL_RE.search(s)] followed by [m.group(0)]. *)
Definition URL_RE_search (s : str) : option str := search_from None s.

(** The result of a matcher once the text [ws], of which it takes
    nothing, is put after the input. *)
Definition extend (ws : str) (x : option (str * str)) : option (str * str) :=
  match x with
  | Some (m, r) => Some (m, r ++ ws)
  | None => None
  end.

End Re.

(** ** [normalize_url] (terminal viewer)

    The argument is stripped; an empty result gives [None]; otherwise
    the pattern is searched, and the matched text is returned, with the
    scheme [https://] put in front when its lower-case form starts with
    [www.].  Callers always pass a string, so the guard against a [None]
    argument is the identity here. *)

Definition normalize_url (s : str) : option str :=
  let s := strip s in
  if negb (truthy s) then None
  else
    match Re.URL_RE_search s with
    | None => None
    | Some url =>
        if startswith (lit "www.") (lower_str url)
        then Some (lit "https://" ++ url)
        else Some url
    end.

(** ** Errors

    The exceptions that the modelled code can raise: an index out of
    bounds (a positional indexer of the table, or a list index), a
    missing label, and a name that a module does not have. *)

Inductive exn := IndexError | KeyError | AttributeError.

Inductive result (A : Type) : Type :=
| Ok (a : A)
| Raise (e : exn).

Arguments Ok {A} a.
Arguments Raise {A} e.

Definition bind {A B : Type} (r : result A) (f : A -> result B) : result B :=
  match r with
  | Ok a => f a
  | Raise e => Raise e
  end.

Notation "x <- r ;; k" := (bind r (fun x => k))
  (at level 61, r at next level, right associativity).
Notation "' p <- r ;; k" := (bind r (fun x => let 'p := x in k))
  (at level 61, p pattern, r at next level, right associativity).

Definition is_ok {A : Type} (r : result A) : bool :=
  match r with Ok _ => true | Raise _ => false end.

(** [len(l)] *)
Definition len {A : Type} (l : list A) : Z := Z.of_nat (List.length l).

(** [l[i]] on a list: a negative index counts from the end, an index
    out of bounds raises. *)
Definition getitem {A : Type} (l : list A) (i : Z) : result A :=
  let j := (if i <? 0 then i + len l else i)%Z in
  if (j <? 0)%Z then Raise IndexError
  else
    match nth_error l (Z.to_nat j) with
    | Some a => Ok a
    | None => Raise IndexError
    end.

(** ** Cell values and tables

    A cell of a loaded sheet is a scalar.  The renderings that Python
    computes for scalars that are not text ([str(x)] of a float, of a
    date, of a missing value) are carried by the value. *)

Inductive cell :=
| CNull (repr : str)
    (** a missing value ([None], NaN, NaT): [pd.isna] holds *)
| CStr (s : str)
    (** text *)
| CInt (z : Z)
    (** an integer *)
| CFloat (int_value : option Z) (repr : str)
    (** a float that is not NaN; [int_value] is [Some (int(x))] when
        [x.is_integer()] holds, and [repr] is [str(x)] *)
| CObj (repr : str).
    (** any other scalar, with its [str(x)] *)

(** [str(x)] *)
Definition py_str (x : cell) : str :=
  match x with
  | CNull r => r
  | CStr s => s
  | CInt z => str_of_int z
  | CFloat _ r => r
  | CObj r => r
  end.

(** [is_nan] of the terminal viewer, and [pd.isna] of the desktop one. *)
Definition is_nan (x : cell) : bool :=
  match x with CNull _ => true | _ => false end.

(** [to_str] of the terminal viewer. *)
Definition to_str (x : cell) : str :=
  if is_nan x then []
  else
    match x with
    | CFloat (Some z) _ => str_of_int z
    | _ => py_str x
    end.

Fixpoint str_eqb (a b : str) : bool :=
  match a, b with
  | [], [] => true
  | x :: a', y :: b' => Ascii.eqb x y && str_eqb a' b'
  | _, _ => false
  end.

(** A table: the column labels in sheet order, and the rows, each row
    holding one cell per column. *)
Record DataFrame := {
  columns : list str;
  rows : list (list cell)
}.

(** Every row has one cell per column. *)
Definition rectangular (df : DataFrame) : Prop :=
  Forall (fun r => List.length r = List.length (columns df)) (rows df).

(** One row of a table, as a series indexed by the column labels. *)
Definition Series := list (str * cell).

(** [len(df)] *)
Definition nrows (df : DataFrame) : Z := len (rows df).

(** [df.iloc[i]]: positional, a negative position counts from the end,
    a position out of bounds raises. *)
Definition iloc (df : DataFrame) (i : Z) : result Series :=
  r <- getitem (rows df) i ;;
  Ok (combine (columns df) r).

(** [row[col]] *)
Fixpoint loc (row : Series) (col : str) : result cell :=
  match row with
  | [] => Raise KeyError
  | (l, v) :: row' => if str_eqb l col then Ok v else loc row' col
  end.

(** ** [row_lines] (terminal viewer) *)

(** A line of the record view: column label, shown value, URL. *)
Definition line := (str * str * option str)%type.

(** Truth value of an optional string: [None] and the empty string are
    false. *)
Definition truthy_opt (u : option str) : bool :=
  match u with Some s => truthy s | None => false end.

(** The body of the loop over the columns, for one column. *)
Definition row_lines_step (row : Series) (acc : list line * list Z) (col : str)
  : result (list line * list Z) :=
  let '(lines, url_line_indices) := acc in
  v <- loc row col ;;
  let val_s := to_str v in
  let url := normalize_url val_s in
  let shown := if negb (str_eqb val_s []) then val_s else lit "(empty)" in
  let lines := lines ++ [(col, shown, url)] in
  if truthy_opt url
  then Ok (lines, url_line_indices ++ [(len lines - 1)%Z])
  else Ok (lines, url_line_indices).

Fixpoint row_lines_loop (row : Series) (cols : list str) (acc : list line * list Z)
  : result (list line * list Z) :=
  match cols with
  | [] => Ok acc
  | col :: cols' =>
      acc' <- row_lines_step row acc col ;;
      row_lines_loop row cols' acc'
  end.

Definition row_lines (df : DataFrame) (row_idx : Z) : result (list line * list Z) :=
  row <- iloc df row_idx ;;
  row_lines_loop row (columns df) ([], []).

(** ** [draw] and [interactive] (terminal viewer)

    Of [draw], the model keeps what the navigation depends on: the
    guard on the empty table, the clamping of the URL focus, the
    focused line, and the value returned.  The screen that it returns
    holds all the lines of the record; [visible], below, gives those
    that fit the height of the terminal and are drawn. *)

Fixpoint enumerate {A : Type} (i : Z) (l : list A) : list (Z * A) :=
  match l with
  | [] => []
  | a :: l' => (i, a) :: enumerate (i + 1)%Z l'
  end.

Definition is_some {A : Type} (o : option A) : bool :=
  match o with Some _ => true | None => false end.

(** What [draw] puts on the screen: the message for an empty table, or
    the lines of the record, each with its highlight, and the label of
    the selected URL field for the footer. *)
Inductive screen :=
| ScreenEmpty
| ScreenRow (shown : list (line * bool)) (selected : option str).

Definition draw (df : DataFrame) (row_idx url_focus_i : Z) : result (screen * Z) :=
  if (nrows df =? 0)%Z then Ok (ScreenEmpty, 0%Z)
  else
    '(lines, url_line_indices) <- row_lines df row_idx ;;
    '(focused_line, url_focus_i) <-
      (if truthy url_line_indices
       then
         let url_focus_i :=
           Z.max 0 (Z.min url_focus_i (len url_line_indices - 1)) in
         focused_line <- getitem url_line_indices url_focus_i ;;
         Ok (focused_line, url_focus_i)
       else Ok ((-1)%Z, url_focus_i)) ;;
    let shown :=
      map (fun '(i, (col, shown, url)) =>
             ((col, shown, url), (i =? focused_line)%Z && is_some url))
          (enumerate 0 lines) in
    selected <-
      (if negb (truthy url_line_indices) then Ok None
       else
         j <- getitem url_line_indices url_focus_i ;;
         l <- getitem lines j ;;
         Ok (Some (fst (fst l)))) ;;
    Ok (ScreenRow shown selected, url_focus_i).

(** The code returned by [getch], as the chain of tests of
    [interactive] classifies it, in the order of the chain. *)
Inductive key := Key_q | Key_RIGHT | Key_LEFT | Key_TAB | Key_ENTER | Key_other.

(** The two cursors of the terminal viewer. *)
Record nav := { row_idx : Z; url_focus_i : Z }.

(** [curses.KEY_TAB].  The [curses] module has the names [KEY_RIGHT],
    [KEY_LEFT] and [KEY_ENTER]; it has no name [KEY_TAB] (its names for
    tabulation keys are [KEY_BTAB], [KEY_CTAB], [KEY_STAB] and
    [KEY_CATAB]), so that looking it up raises. *)
Definition curses_KEY_TAB : result unit := Raise AttributeError.

(** The body of the branch for the tabulation key. *)
Definition on_TAB (df : DataFrame) (st : nav) : result (nav * list str) :=
  '(_, url_line_indices) <- row_lines df (row_idx st) ;;
  if truthy url_line_indices
  then Ok ({| row_idx := row_idx st;
              url_focus_i := (url_focus_i st + 1) mod len url_line_indices |},
           [])
  else Ok (st, []).

(** The body of the branch for the key that opens the focused URL. *)
Definition on_ENTER (df : DataFrame) (st : nav) : result (nav * list str) :=
  '(lines, url_line_indices) <- row_lines df (row_idx st) ;;
  if truthy url_line_indices
  then
    focused_line <- getitem url_line_indices (url_focus_i st) ;;
    '(_, _, url) <- getitem lines focused_line ;;
    match url with
    | Some u => if truthy u then Ok (st, [u]) else Ok (st, [])
    | None => Ok (st, [])
    end
  else Ok (st, []).

(** The branches of the loop body of [interactive] after [getch], for a
    key other than [q]: the new cursors and the URLs handed to the
    browser.  The tests are made in the order of the source: the key
    for the next record, the key for the previous one, and then the
    test [ch in (curses.KEY_TAB, 9)], which builds its tuple, and so
    looks [curses.KEY_TAB] up, before any comparison; the tests that
    follow it are reached only if that succeeds. *)
Definition handle_key (df : DataFrame) (st : nav) (ch : key)
  : result (nav * list str) :=
  match ch with
  | Key_RIGHT =>
      if (row_idx st <? nrows df - 1)%Z
      then Ok ({| row_idx := row_idx st + 1; url_focus_i := 0 |}, [])
      else Ok (st, [])
  | Key_LEFT =>
      if (row_idx st >? 0)%Z
      then Ok ({| row_idx := row_idx st - 1; url_focus_i := 0 |}, [])
      else Ok (st, [])
  | Key_q => Ok (st, [])
  | Key_TAB | Key_ENTER | Key_other =>
      _ <- curses_KEY_TAB ;;
      match ch with
      | Key_TAB => on_TAB df st
      | Key_ENTER => on_ENTER df st
      | _ => Ok (st, [])
      end
  end.

(** One pass of the loop: [draw] clamps the focus, then the key is
    handled.  [None] stands for leaving the loop. *)
Definition loop_pass (df : DataFrame) (st : nav) (ch : key)
  : result (nav * option (list str)) :=
  '(_, f) <- draw df (row_idx st) (url_focus_i st) ;;
  let st := {| row_idx := row_idx st; url_focus_i := f |} in
  match ch with
  | Key_q => Ok (st, None)
  | _ => '(st', o) <- handle_key df st ch ;; Ok (st', Some o)
  end.

(** The loop of [interactive] on the keys typed so far; when they are
    used up the viewer has drawn the current record and waits. *)
Fixpoint loop (df : DataFrame) (st : nav) (keys : list key) (opened : list str)
  : result (nav * list str) :=
  match keys with
  | [] =>
      '(_, f) <- draw df (row_idx st) (url_focus_i st) ;;
      Ok ({| row_idx := row_idx st; url_focus_i := f |}, opened)
  | ch :: keys' =>
      '(st', o) <- loop_pass df st ch ;;
      match o with
      | None => Ok (st', opened)
      | Some us => loop df st' keys' (opened ++ us)
      end
  end.

(** The outcome of a session: the cursors, which do not exist when the
    table is empty, and the URLs opened. *)
Record outcome := { cursors : option nav; opened : list str }.

Definition interactive (df : DataFrame) (keys : list key) : result outcome :=
  if (nrows df =? 0)%Z then
    _ <- draw df 0 0 ;;
    Ok {| cursors := None; opened := [] |}
  else
    '(st, us) <- loop df {| row_idx := 0; url_focus_i := 0 |} keys [] ;;
    Ok {| cursors := Some st; opened := us |}.

(** ** The desktop viewer

    Of the class [App], the model keeps the table, the record cursor
    and the focused URL, and of [render_row] the widgets it builds. *)

Module Gui.

Record App := { df : DataFrame; row : Z; focused_url : option str }.

(** A value of the record: a plain text box, or a text box with a
    button that opens the URL. *)
Inductive widget :=
| Value (label content : str)
| UrlValue (label content url : str).

Inductive rendered :=
| RenderedEmpty
| RenderedRow (widgets : list widget).

(** The text shown by [_add_selectable_value]. *)
Definition selectable_value (text : str) : str :=
  if truthy text then text else lit "(empty)".

Definition is_http (s : str) : bool :=
  startswith (lit "http://") (lower_str s)
  || startswith (lit "https://") (lower_str s).

(** The detection branch of [render_row], on the stripped text. *)
Definition render_row_url (s : str) : option str :=
  if startswith (lit "www.") s then Some (lit "https://" ++ s)
  else if is_http s then Some s
  else None.

(** The detection branch of [open_all_urls], on the stripped text. *)
Definition open_all_urls_url (s : str) : option str :=
  let s := if startswith (lit "www.") s then lit "https://" ++ s else s in
  if is_http s then Some s else None.


(** The URL that [open_all_urls] finds in a cell. *)
Definition open_all_urls_detect (v : cell) : option str :=
  if is_nan v then None else open_all_urls_url (strip (py_str v)).

Definition render_cell (col : str) (v : cell) : widget :=
  if is_nan v then Value col (selectable_value (lit "(empty)"))
  else
    let s := strip (py_str v) in
    let url := render_row_url s in
    match url with
    | Some u =>
        if truthy u then UrlValue col (selectable_value u) u
        else Value col (selectable_value s)
    | None => Value col (selectable_value s)
    end.

Fixpoint render_row_loop (r : Series) (cols : list str) : result (list widget) :=
  match cols with
  | [] => Ok []
  | col :: cols' =>
      v <- loc r col ;;
      ws <- render_row_loop r cols' ;;
      Ok (render_cell col v :: ws)
  end.

Definition render_row (self : App) : result (App * rendered) :=
  if (nrows (df self) =? 0)%Z then Ok (self, RenderedEmpty)
  else
    let self := {| df := df self; row := row self; focused_url := None |} in
    r <- iloc (df self) (row self) ;;
    ws <- render_row_loop r (columns (df self)) ;;
    Ok (self, RenderedRow ws).

(** [prev_row] and [next_row]: the new state, and what was rendered, if
    anything. *)
Definition prev_row (self : App) : result (App * option rendered) :=
  if (nrows (df self) =? 0)%Z then Ok (self, None)
  else if (row self >? 0)%Z then
    '(self, out) <-
      render_row {| df := df self; row := row self - 1;
                    focused_url := focused_url self |} ;;
    Ok (self, Some out)
  else Ok (self, None).

Definition next_row (self : App) : result (App * option rendered) :=
  if (nrows (df self) =? 0)%Z then Ok (self, None)
  else if (row self <? nrows (df self) - 1)%Z then
    '(self, out) <-
      render_row {| df := df self; row := row self + 1;
                    focused_url := focused_url self |} ;;
    Ok (self, Some out)
  else Ok (self, None).

Fixpoint open_all_urls_loop (r : Series) (cols : list str) (urls : list str)
  : result (list str) :=
  match cols with
  | [] => Ok urls
  | col :: cols' =>
      v <- loc r col ;;
      match open_all_urls_detect v with
      | Some s => open_all_urls_loop r cols' (urls ++ [s])
      | None => open_all_urls_loop r cols' urls
      end
  end.

(** [open_all_urls]: the URLs handed to the browser, in order. *)
Definition open_all_urls (self : App) : result (list str) :=
  if (nrows (df self) =? 0)%Z then Ok []
  else
    r <- iloc (df self) (row self) ;;
    open_all_urls_loop r (columns (df self)) [].

Definition set_focus_url (self : App) (url : str) : App :=
  {| df := df self; row := row self; focused_url := Some url |}.

(** [open_focused_url]: the URLs handed to the browser. *)
Definition open_focused_url (self : App) : list str :=
  match focused_url self with
  | Some u => if truthy u then [u] else []
  | None => []
  end.

(** [load_current_sheet]; [loaded] is [None] when the sheet could not
    be read, and the table is then the empty one. *)
Definition load_current_sheet (self : App) (loaded : option DataFrame)
  : result (App * rendered) :=
  let d := match loaded with
           | Some d => d
           | None => {| columns := []; rows := [] |}
           end in
  render_row {| df := d; row := 0; focused_url := None |}.

End Gui.

Module GuiLoop.

Import Gui.

(** The key bindings of [_bind_keys]. *)
Inductive event := Ev_Left | Ev_Right | Ev_Return.

(** One event: the new state and the URLs handed to the browser. *)
Definition handle (self : App) (e : event) : result (App * list str) :=
  match e with
  | Ev_Left => '(self, _) <- prev_row self ;; Ok (self, [])
  | Ev_Right => '(self, _) <- next_row self ;; Ok (self, [])
  | Ev_Return => Ok (self, open_focused_url self)
  end.

Fixpoint run (self : App) (events : list event) (opened : list str)
  : result (App * list str) :=
  match events with
  | [] => Ok (self, opened)
  | e :: events' =>
      '(self, us) <- handle self e ;;
      run self events' (opened ++ us)
  end.

End GuiLoop.

(** ** The viewer seen as the engine of the specification *)

(** The URL focus that the terminal viewer shows for its cursors: the
    position [url_focus_i] in the URL index list of the current record
    when that list is not empty, and no focus otherwise ([draw] then
    sets the focused line to -1 and highlights nothing). *)
Definition url_focus (df : DataFrame) (st : nav) : result (option Z) :=
  '(_, url_line_indices) <- row_lines df (row_idx st) ;;
  Ok (if truthy url_line_indices then Some (url_focus_i st) else None).

(** The cursors as the specification writes them: record cursor and
    URL focus. *)
Definition engine_state (df : DataFrame) (st : nav) : result (Z * option Z) :=
  f <- url_focus df st ;;
  Ok (row_idx st, f).

(** The engine state after the keys typed so far. *)
Definition state_after (df : DataFrame) (keys : list key) : result (Z * option Z) :=
  '(st, _) <- loop df {| row_idx := 0; url_focus_i := 0 |} keys [] ;;
  engine_state df st.

(** The parts of a line, and whether it carries a URL. *)
Definition label (l : line) : str := fst (fst l).
Definition url_of (l : line) : option str := snd l.
Definition has_url (l : line) : bool := truthy_opt (url_of l).

(** The line that [row_lines] builds for the cell [v] of column
    [col]. *)
Definition line_of (col : str) (v : cell) : line :=
  (col,
   if negb (str_eqb (to_str v) []) then to_str v else lit "(empty)",
   normalize_url (to_str v)).

(** The positions, counted from [i], of the lines that carry a URL, in
    order. *)
Definition url_positions_from (i : Z) (lines : list line) : list Z :=
  map fst (filter (fun p => has_url (snd p)) (enumerate i lines)).

Definition url_positions (lines : list line) : list Z :=
  url_positions_from 0 lines.

(** A URL that can be opened as it is: it begins, whatever the case,
    with [http://] or [https://], and holds no white space, angle
    bracket or double quote. *)
Definition openable (u : str) : Prop :=
  (startswith (lit "http://") (lower_str u)
   || startswith (lit "https://") (lower_str u)) = true
  /\ Forall (fun c => isspace c = false
                      /\ c <> "<"%char /\ c <> ">"%char /\ c <> "034"%char) u.

(** The focus after [draw] has clamped it to the URL index list. *)
Definition clamp_focus (url_line_indices : list Z) (f : Z) : Z :=
  if truthy url_line_indices
  then Z.max 0 (Z.min f (len url_line_indices - 1))
  else f.

(** The record cursor points at a row of the table. *)
Definition row_in_range (df : DataFrame) (r : Z) : Prop :=
  (0 <= r < nrows df)%Z.

(** The table of the scenario: three rows and two columns; the first
    row has one URL field, the second none, the third two. *)
Definition scenario : DataFrame :=
  {| columns := [lit "name"; lit "site"];
     rows :=
       [ [CStr (lit "Ann"); CStr (lit "https://a.example/")];
         [CStr (lit "Bob"); CNull (lit "nan")];
         [CStr (lit "www.c.example"); CStr (lit "see http://d.example/x now")] ] |}.

(** ** What the specification says of URL detection *)

Module Spec.

(** One or more characters of the class. *)
Definition url_run (run : str) : Prop :=
  run <> [] /\ Forall (fun c => Re.url_char c = true) run.

(** A token that begins, whatever the case, with [http://] or
    [https://], followed by one or more characters of the class. *)
Definition http_token (tok : str) : Prop :=
  exists p run,
    tok = p ++ run
    /\ (lower_str p = lit "http://" \/ lower_str p = lit "https://")
    /\ url_run run.

(** A token that begins, whatever the case, with [www.], followed by
    one or more characters of the class. *)
Definition www_token (tok : str) : Prop :=
  exists p run, tok = p ++ run /\ lower_str p = lit "www." /\ url_run run.

(** The normalization of a matched token. *)
Definition canonical (tok : str) : str :=
  if startswith (lit "www.") (lower_str tok) then lit "https://" ++ tok else tok.

(** The text [tok] stops where the class stops. *)
Definition maximal (r : str) : Prop :=
  match r with
  | [] => True
  | c :: _ => Re.url_char c = false
  end.

(** The last character of the text [l] before a position, and [prev]
    when [l] is empty. *)
Definition before_from (prev : option ascii) (l : str) : option ascii :=
  match rev l with
  | c :: _ => Some c
  | [] => prev
  end.

Definition before (l : str) : option ascii := before_from None l.

(** A token as the pattern takes it at a position that [prev]
    precedes: a token of the first kind counts only at a word start,
    that is, when no word character precedes it. *)
Definition token_after (prev : option ascii) (tok : str) : Prop :=
  (http_token tok /\ Re.word_before prev = false) \/ www_token tok.

(** An occurrence of a token in [s], after the prefix [l], as the
    specification words it. *)
Definition occurs (s l tok r : str) : Prop :=
  s = l ++ tok ++ r /\ (http_token tok \/ www_token tok).

(** An occurrence as the pattern takes it. *)
Definition occurs_b (s l tok r : str) : Prop :=
  s = l ++ tok ++ r /\ token_after (before l) tok.

(** The first occurrence, taken as far as the class goes. *)
Definition first_occurrence_b (s l tok r : str) : Prop :=
  occurs_b s l tok r
  /\ maximal r
  /\ forall l' tok' r', occurs_b s l' tok' r' -> (List.length l <= List.length l')%nat.

(** Detection as the specification words it, run on the input: the
    two kinds of token, tried at every position from the left, nothing
    being asked of the character before. *)
Definition match_here (s : str) : option str :=
  match Re.seq (Re.lits (lit "http"))
               (Re.opt_then (Re.lits (lit "s"))
                            (Re.seq (Re.lits (lit "://")) Re.url_chars1)) s with
  | Some (m, _) => Some m
  | None =>
      match Re.branch_www s with
      | Some (m, _) => Some m
      | None => None
      end
  end.

Fixpoint detect (s : str) : option str :=
  match match_here s with
  | Some m => Some m
  | None =>
      match s with
      | _ :: s' => detect s'
      | [] => None
      end
  end.

Definition normalize_url (s : str) : option str :=
  option_map canonical (detect s).

End Spec.


(** A table of one row and one column, holding the cell [v]. *)
Definition single (v : cell) : DataFrame :=
  {| columns := [lit "c"]; rows := [[v]] |}.

(** ** Further code of the terminal viewer: the sheet selector

    [load_xlsx] reads the sheet named by its argument, which it takes
    for a position when [str(sheet).isdigit()] holds and for a name
    otherwise. *)

Module Sheet.

(** [c.isdigit()] on one character: the ten digits and the three
    superscript digits of Latin-1.  Beyond Latin-1, which the strings
    of this model do not reach, Python counts further characters as
    digits, among them decimal digits that [int] accepts. *)
Definition isdigit_char (c : ascii) : bool :=
  in_range 48 57 c || (ord c =? 178)%N || (ord c =? 179)%N || (ord c =? 185)%N.

(** [s.isdigit()] *)
Definition isdigit (s : str) : bool := truthy s && forallb isdigit_char s.

(** The number of digits beyond which [int] refuses a string (the
    default limit of recent interpreters; older ones have none). *)
Definition max_str_digits : nat := 4300.

(** [int(s)] for a string [s] on which [isdigit] holds: the decimal
    value of the ten digits; [None] stands for the [ValueError] raised
    on any other character and on a string of too many digits. *)
Definition int_of_digits (s : str) : option Z :=
  if (max_str_digits <? List.length s)%nat then None
  else option_map Z.of_uint (NilEmpty.uint_of_string (string_of_list_ascii s)).

(** What [load_xlsx] passes as [sheet_name]. *)
Inductive sheet_name :=
| Index (n : Z)
| Name (s : str).

(** The selector of [load_xlsx]; [None] stands for [ValueError]. *)
Definition selector (sheet : str) : option sheet_name :=
  if isdigit sheet then option_map Index (int_of_digits sheet)
  else Some (Name sheet).

End Sheet.

(** ** Further code of the desktop viewer *)

Module GuiMore.

Import Gui.

(** The candidates of [choose_palatino_family], in order. *)
Definition candidates : list str :=
  [lit "Palatino Linotype"; lit "Palatino"; lit "URW Palladio L";
   lit "TeX Gyre Pagella"; lit "Book Antiqua"; lit "Times New Roman";
   lit "DejaVu Serif"; lit "Liberation Serif"; lit "Serif"].

(** [c in available] *)
Definition mem (c : str) (available : list str) : bool :=
  existsb (str_eqb c) available.

(** The loop of [choose_palatino_family] over the candidates left,
    and the value returned when it ends. *)
Fixpoint choose_from (available cs : list str) : str :=
  match cs with
  | [] => lit "Serif"
  | c :: cs' => if mem c available then c else choose_from available cs'
  end.

(** [choose_palatino_family], given the families that the toolkit
    lists. *)
Definition choose_palatino_family (available : list str) : str :=
  choose_from available candidates.

(** The parts of a widget. *)
Definition widget_label (w : widget) : str :=
  match w with Value l _ => l | UrlValue l _ _ => l end.

Definition widget_content (w : widget) : str :=
  match w with Value _ c => c | UrlValue _ c _ => c end.

(** The URLs of the buttons of a rendered record, in order. *)
Fixpoint button_urls (ws : list widget) : list str :=
  match ws with
  | [] => []
  | Value _ _ :: ws' => button_urls ws'
  | UrlValue _ _ u :: ws' => u :: button_urls ws'
  end.

Definition rendered_urls (out : rendered) : list str :=
  match out with
  | RenderedEmpty => []
  | RenderedRow ws => button_urls ws
  end.

End GuiMore.

(** ** The column printer ([csv_printer.py])

    The script reads a sheet, selects seven columns, and for each row
    prints one line per cell that is neither missing nor blank,
    followed by a separator line when it printed any.  The output is
    modelled as the list of the lines printed. *)

Module CsvPrinter.

Definition cols : list str :=
  [lit "Full Name"; lit "Email"; lit "Lead's LinkedIn URL"; lit "Job Title";
   lit "Company Name"; lit "Company Website";
   lit "Company LinkedIn Profile URL"].

Definition separator : str := lit "-----------------------".

(** The line printed for the value [v] of column [c]. *)
Definition field_line (c v : str) : str := c ++ lit ": " ++ v.

(** The cells of one row under the labels [cs], in order. *)
Fixpoint pick (row : Series) (cs : list str) : result (list cell) :=
  match cs with
  | [] => Ok []
  | c :: cs' =>
      v <- loc row c ;;
      vs <- pick row cs' ;;
      Ok (v :: vs)
  end.

Fixpoint pick_rows (labels cs : list str) (rs : list (list cell))
  : result (list (list cell)) :=
  match rs with
  | [] => Ok []
  | r :: rs' =>
      r' <- pick (combine labels r) cs ;;
      rs'' <- pick_rows labels cs rs' ;;
      Ok (r' :: rs'')
  end.

(** [df[cs]]: the columns [cs] of the table, in that order; the
    selection raises when a label is missing. *)
Definition select (df : DataFrame) (cs : list str) : result DataFrame :=
  if forallb (fun c => GuiMore.mem c (columns df)) cs
  then
    rs <- pick_rows (columns df) cs (rows df) ;;
    Ok {| columns := cs; rows := rs |}
  else Raise KeyError.

(** The inner loop, over the columns of one row: the lines printed,
    in order. *)
Fixpoint print_fields (row : Series) (cs : list str) : result (list str) :=
  match cs with
  | [] => Ok []
  | c :: cs' =>
      v <- loc row c ;;
      let here :=
        if negb (is_nan v) then
          let v := strip (py_str v) in
          if truthy v then [field_line c v] else []
        else [] in
      rest <- print_fields row cs' ;;
      Ok (here ++ rest)
  end.

(** The body of the outer loop, for one row. *)
Definition print_row (row : Series) : result (list str) :=
  printed <- print_fields row cols ;;
  Ok (if truthy printed then printed ++ [separator] else printed).

Fixpoint print_rows (cs : list str) (rs : list (list cell)) : result (list str) :=
  match rs with
  | [] => Ok []
  | r :: rs' =>
      here <- print_row (combine cs r) ;;
      rest <- print_rows cs rs' ;;
      Ok (here ++ rest)
  end.

(** The script, on the sheet it has read. *)
Definition main (df : DataFrame) : result (list str) :=
  sel <- select df cols ;;
  print_rows (columns sel) (rows sel).

End CsvPrinter.

(** The URL focus lies within the URL index list of the current
    record, and is 0 when that list is empty. *)
Definition focus_in_range (df : DataFrame) (st : nav) : Prop :=
  forall lines idxs,
    row_lines df (row_idx st) = Ok (lines, idxs) ->
    (0 <= url_focus_i st < Z.max 1 (len idxs))%Z.

(** A text that neither begins nor ends with white space. *)
Definition trimmed (t : str) : Prop :=
  match t with [] => True | c :: _ => isspace c = false end
  /\ match rev t with [] => True | c :: _ => isspace c = false end.

(** A line that the column printer prints for a value: the label of
    one of its columns, a colon and a space, and a value that is not
    empty and is trimmed. *)
Definition is_field_line (cs : list str) (l : str) : Prop :=
  exists c v,
    In c cs /\ l = CsvPrinter.field_line c v /\ v <> [] /\ trimmed v.

(** The output made of the blocks [blocks], each followed by the
    separator line. *)
Definition blocks_output (blocks : list (list str)) : list str :=
  List.concat (map (fun b => b ++ [CsvPrinter.separator]) blocks).

(** A move of the record cursor, to the next record or to the previous
    one, as a key of the terminal viewer and as an event of the
    desktop viewer. *)
Inductive move := Next | Prev.

Definition move_key (m : move) : key :=
  match m with Next => Key_RIGHT | Prev => Key_LEFT end.

Definition move_event (m : move) : GuiLoop.event :=
  match m with Next => GuiLoop.Ev_Right | Prev => GuiLoop.Ev_Left end.

(** A sheet with the seven columns of the column printer: a row with
    three values, one of them blank, and a row without any. *)
Definition leads : DataFrame :=
  {| columns := CsvPrinter.cols;
     rows :=
       [ [CStr (lit " Ann Lee "); CNull (lit "nan"); CStr (lit "   ");
          CStr (lit "CTO"); CNull (lit "nan"); CNull (lit "nan");
          CNull (lit "nan")];
         [CNull (lit "nan"); CNull (lit "nan"); CNull (lit "nan");
          CNull (lit "nan"); CNull (lit "nan"); CNull (lit "nan");
          CStr (lit "")] ] |}.

(** The record cursor after a move, in a table of [nrows df] rows. *)
Definition step_row (df : DataFrame) (m : move) (r : Z) : Z :=
  match m with
  | Next => if (r <? nrows df - 1)%Z then (r + 1)%Z else r
  | Prev => if (r >? 0)%Z then (r - 1)%Z else r
  end.

(** The lines that [draw] draws on a terminal of [h] rows, from row
    [y] on: it stops at the first line for which [y >= h - 2], where
    it writes that more columns are not shown; the second component
    tells whether it did. *)
Fixpoint visible (h y : Z) (shown : list (line * bool))
  : list (line * bool) * bool :=
  match shown with
  | [] => ([], false)
  | x :: rest =>
      if (y >=? h - 2)%Z then ([], true)
      else let (v, more) := visible h (y + 1) rest in (x :: v, more)
  end.




(** * Properties *)

(** ** Characters *)

Ltac by_cases_on_char c :=
  destruct c as [[] [] [] [] [] [] [] []]; vm_compute; try reflexivity; try discriminate.

Lemma url_char_lower (c : ascii) : Re.url_char (lower c) = Re.url_char c.
Proof. by_cases_on_char c. Qed.

Lemma isspace_not_url_char (c : ascii) : isspace c = true -> Re.url_char c = false.
Proof. unfold Re.url_char. intros ->. reflexivity. Qed.

Lemma url_char_not_space (c : ascii) : Re.url_char c = true -> isspace c = false.
Proof.
  unfold Re.url_char. destruct (isspace c); [discriminate | reflexivity].
Qed.

Lemma isspace_not_word (c : ascii) : isspace c = true -> isword c = false.
Proof. by_cases_on_char c. Qed.

Lemma isspace_lower (c : ascii) : isspace c = true -> lower c = c.
Proof. by_cases_on_char c. Qed.

Lemma lower_h_word (c : ascii) : lower c = "h"%char -> isword c = true.
Proof. by_cases_on_char c. Qed.

Lemma lower_not_space (c : ascii) :
  isspace c = true ->
  lower c <> "h"%char /\ lower c <> "w"%char.
Proof. by_cases_on_char c; intros _; split; discriminate. Qed.

(** ** The matchers *)

Section Matchers.

Import Re.

Lemma lits_sound (p s m r : str) :
  lits p s = Some (m, r) -> s = m ++ r /\ lower_str m = p.
Proof.
  revert s m r. induction p as [|a p IH]; intros s m r H; simpl in H.
  - destruct s; inversion H; subst; auto.
  - destruct s as [|c s]; [discriminate|].
    unfold lit_i in H. destruct (Ascii.eqb_spec (lower c) a) as [E|]; [|discriminate].
    destruct (lits p s) as [[m' r']|] eqn:L; [|discriminate].
    inversion H; subst. destruct (IH _ _ _ L) as [-> <-]. auto.
Qed.

Lemma lits_complete (m r : str) : lits (lower_str m) (m ++ r) = Some (m, r).
Proof.
  induction m as [|c m IH]; simpl.
  - destruct r; reflexivity.
  - unfold lit_i. rewrite Ascii.eqb_refl, IH. reflexivity.
Qed.

Lemma url_chars_sound (s m r : str) :
  url_chars s = (m, r) ->
  s = m ++ r /\ Forall (fun c => url_char c = true) m /\ Spec.maximal r.
Proof.
  revert m r. induction s as [|c s IH]; intros m r H; simpl in H.
  - inversion H; subst. repeat split; auto.
  - destruct (url_char c) eqn:E.
    + destruct (url_chars s) as [m' r'] eqn:U. inversion H; subst.
      destruct (IH _ _ eq_refl) as (-> & F & M). repeat split; auto.
    + inversion H; subst. repeat split; auto.
Qed.

Lemma url_chars_app (run r : str) :
  Forall (fun c => url_char c = true) run ->
  url_chars (run ++ r) = (run ++ fst (url_chars r), snd (url_chars r)).
Proof.
  induction 1 as [|c run Hc _ IH]; simpl.
  - destruct (url_chars r); reflexivity.
  - rewrite Hc, IH. reflexivity.
Qed.

Lemma url_chars1_sound (s m r : str) :
  url_chars1 s = Some (m, r) -> s = m ++ r /\ Spec.url_run m /\ Spec.maximal r.
Proof.
  unfold url_chars1. destruct (url_chars s) as [m' r'] eqn:U. intros H.
  destruct m' as [|c m']; [discriminate|]. inversion H; subst.
  destruct (url_chars_sound _ _ _ U) as (-> & F & M).
  repeat split; auto. discriminate.
Qed.

Lemma url_chars1_complete (run r : str) :
  Spec.url_run run -> exists m r', url_chars1 (run ++ r) = Some (m, r').
Proof.
  intros [Hne F]. unfold url_chars1. rewrite (url_chars_app _ r F).
  destruct run as [|c run]; [congruence|]. simpl. eauto.
Qed.

Lemma seq_Some (m1 m2 : matcher) (s tok r : str) :
  seq m1 m2 s = Some (tok, r) ->
  exists a r1 b, m1 s = Some (a, r1) /\ m2 r1 = Some (b, r) /\ tok = a ++ b.
Proof.
  unfold seq. destruct (m1 s) as [[a r1]|]; [|discriminate].
  destruct (m2 r1) as [[b r2]|] eqn:E2; [|discriminate].
  intros H; inversion H; subst. exists a, r1, b. repeat split; assumption.
Qed.

Lemma seq_intro (m1 m2 : matcher) (s a r1 b r : str) :
  m1 s = Some (a, r1) -> m2 r1 = Some (b, r) -> seq m1 m2 s = Some (a ++ b, r).
Proof. unfold seq. intros -> ->. reflexivity. Qed.

Lemma opt_then_Some (m1 m2 : matcher) (s : str) (x : str * str) :
  opt_then m1 m2 s = Some x -> seq m1 m2 s = Some x \/ m2 s = Some x.
Proof.
  unfold opt_then. destruct (seq m1 m2 s); intros H; [left|right]; assumption.
Qed.

Lemma lower_str_app (a b : str) : lower_str (a ++ b) = lower_str a ++ lower_str b.
Proof. apply map_app. Qed.

Lemma branch_http_sound (prev : option ascii) (s tok r : str) :
  branch_http prev s = Some (tok, r) ->
  s = tok ++ r /\ Spec.http_token tok /\ word_before prev = false /\ Spec.maximal r.
Proof.
  unfold branch_http. destruct (word_boundary prev s) eqn:B; [|discriminate].
  intros H. apply seq_Some in H as (a & r1 & b & H1 & H2 & ->).
  apply lits_sound in H1 as [-> La].
  assert (W : word_before prev = false).
  { destruct a as [|c1 a]; [discriminate|].
    unfold lit in La; simpl in La. injection La as L1 _.
    unfold word_boundary in B. simpl in B. rewrite (lower_h_word _ L1) in B.
    destruct (word_before prev); [discriminate | reflexivity]. }
  apply opt_then_Some in H2 as [H2|H2].
  - apply seq_Some in H2 as (b1 & r2 & b2 & Hs & H3 & ->).
    apply lits_sound in Hs as [-> Ls].
    apply seq_Some in H3 as (c & r3 & run & Hc & Hu & ->).
    apply lits_sound in Hc as [-> Lc].
    apply url_chars1_sound in Hu as (-> & Hrun & M).
    repeat split; auto.
    + now rewrite <- !app_assoc.
    + exists (a ++ b1 ++ c), run. repeat split; try apply Hrun.
      * now rewrite <- !app_assoc.
      * right. rewrite !lower_str_app, La, Ls, Lc. reflexivity.
  - apply seq_Some in H2 as (c & r3 & run & Hc & Hu & ->).
    apply lits_sound in Hc as [-> Lc].
    apply url_chars1_sound in Hu as (-> & Hrun & M).
    repeat split; auto.
    + now rewrite <- !app_assoc.
    + exists (a ++ c), run. repeat split; try apply Hrun.
      * now rewrite <- !app_assoc.
      * left. rewrite !lower_str_app, La, Lc. reflexivity.
Qed.

Lemma branch_www_sound (s tok r : str) :
  branch_www s = Some (tok, r) ->
  s = tok ++ r /\ Spec.www_token tok /\ Spec.maximal r.
Proof.
  unfold branch_www. intros H.
  apply seq_Some in H as (a & r1 & run & H1 & Hu & ->).
  apply lits_sound in H1 as [-> La].
  apply url_chars1_sound in Hu as (-> & Hrun & M).
  repeat split; auto.
  - now rewrite <- app_assoc.
  - exists a, run. auto.
Qed.

Lemma branch_http_complete (prev : option ascii) (tok r : str) :
  Spec.http_token tok -> word_before prev = false ->
  exists m r', branch_http prev (tok ++ r) = Some (m, r').
Proof.
  intros (p & run & -> & Hp & Hrun) W.
  destruct (url_chars1_complete _ r Hrun) as (m & r' & U).
  rewrite <- app_assoc.
  destruct Hp as [Hp|Hp].
  - unfold lit in Hp; simpl in Hp.
    do 7 (destruct p as [|? p]; [discriminate Hp|]).
    destruct p; [|discriminate Hp].
    injection Hp as L1 L2 L3 L4 L5 L6 L7.
    unfold branch_http, word_boundary. simpl word_after.
    rewrite (lower_h_word _ L1), W. simpl xorb. cbv iota.
    unfold seq, opt_then, seq, lit.
    repeat (progress (simpl; unfold lit_i;
                      rewrite ?L1, ?L2, ?L3, ?L4, ?L5, ?L6, ?L7; simpl)).
    rewrite U. eauto.
  - unfold lit in Hp; simpl in Hp.
    do 8 (destruct p as [|? p]; [discriminate Hp|]).
    destruct p; [|discriminate Hp].
    injection Hp as L1 L2 L3 L4 L5 L6 L7 L8.
    unfold branch_http, word_boundary. simpl word_after.
    rewrite (lower_h_word _ L1), W. simpl xorb. cbv iota.
    unfold seq, opt_then, seq, lit.
    repeat (progress (simpl; unfold lit_i;
                      rewrite ?L1, ?L2, ?L3, ?L4, ?L5, ?L6, ?L7, ?L8; simpl)).
    rewrite U. eauto.
Qed.

Lemma branch_www_complete (tok r : str) :
  Spec.www_token tok -> exists m r', branch_www (tok ++ r) = Some (m, r').
Proof.
  intros (p & run & -> & Hp & Hrun).
  destruct (url_chars1_complete _ r Hrun) as (m & r' & U).
  rewrite <- app_assoc. unfold branch_www.
  rewrite <- Hp. erewrite seq_intro; [eauto | apply lits_complete | apply U].
Qed.

Lemma match_here_sound (prev : option ascii) (s tok : str) :
  match_here prev s = Some tok ->
  exists r, s = tok ++ r /\ Spec.token_after prev tok /\ Spec.maximal r.
Proof.
  unfold match_here.
  destruct (branch_http prev s) as [[m r]|] eqn:B.
  - intros H; inversion H; subst.
    apply branch_http_sound in B as (-> & T & W & M).
    exists r. repeat split; auto. left; auto.
  - destruct (branch_www s) as [[m r]|] eqn:B'; [|discriminate].
    intros H; inversion H; subst.
    apply branch_www_sound in B' as (-> & T & M).
    exists r. repeat split; auto. right; auto.
Qed.

Lemma match_here_complete (prev : option ascii) (tok r : str) :
  Spec.token_after prev tok -> match_here prev (tok ++ r) <> None.
Proof.
  unfold match_here. intros [[T W]|T].
  - destruct (@branch_http_complete prev tok r T W) as (m & r' & ->). discriminate.
  - destruct (@branch_www_complete tok r T) as (m & r' & ->).
    destruct (branch_http prev (tok ++ r)) as [[? ?]|]; discriminate.
Qed.

Lemma search_from_unfold (prev : option ascii) (s : str) :
  search_from prev s =
  match match_here prev s with
  | Some m => Some m
  | None => match s with c :: s' => search_from (Some c) s' | [] => None end
  end.
Proof. destruct s; reflexivity. Qed.

Lemma before_from_cons (prev : option ascii) (c : ascii) (l : str) :
  Spec.before_from prev (c :: l) = Spec.before_from (Some c) l.
Proof.
  unfold Spec.before_from. simpl. destruct (rev l); reflexivity.
Qed.

(** The search returns the first occurrence, and finds none only when
    there is none. *)
Lemma search_from_spec (s : str) : forall prev,
  match search_from prev s with
  | Some tok =>
      exists l r,
        s = l ++ tok ++ r
        /\ Spec.token_after (Spec.before_from prev l) tok
        /\ Spec.maximal r
        /\ forall l' tok' r',
             s = l' ++ tok' ++ r' ->
             Spec.token_after (Spec.before_from prev l') tok' ->
             (List.length l <= List.length l')%nat
  | None =>
      forall l' tok' r',
        s = l' ++ tok' ++ r' ->
        ~ Spec.token_after (Spec.before_from prev l') tok'
  end.
Proof.
  induction s as [|c s IH]; intros prev; rewrite search_from_unfold;
    destruct (match_here prev _) as [tok|] eqn:M.
  - apply match_here_sound in M as (r & E & T & Mx).
    exists [], r. repeat split; auto. intros; simpl; lia.
  - intros l' tok' r' E T.
    destruct l' as [|? ?]; [|discriminate E]. simpl in E.
    apply (@match_here_complete _ _ r') in T. rewrite <- E in T. contradiction.
  - apply match_here_sound in M as (r & E & T & Mx).
    exists [], r. repeat split; auto. intros; simpl; lia.
  - specialize (IH (Some c)).
    assert (Hhead : forall tok' r', c :: s = tok' ++ r' ->
                                    ~ Spec.token_after prev tok').
    { intros tok' r' E T. apply (@match_here_complete _ _ r') in T.
      rewrite <- E in T. contradiction. }
    destruct (search_from (Some c) s) as [tok|].
    + destruct IH as (l & r & E & T & Mx & Hmin).
      exists (c :: l), r. rewrite before_from_cons. repeat split; auto.
      * simpl. now rewrite <- E.
      * intros l' tok' r' E' T'. destruct l' as [|c' l'].
        -- exfalso. exact (@Hhead tok' r' E' T').
        -- simpl in E'. injection E' as <- E'.
           rewrite before_from_cons in T'. simpl.
           apply le_n_S. eapply Hmin; eauto.
    + intros l' tok' r' E' T'. destruct l' as [|c' l'].
      * exact (@Hhead tok' r' E' T').
      * simpl in E'. injection E' as <- E'.
        rewrite before_from_cons in T'. eapply IH; eauto.
Qed.

(** *** Stripping does not change what the search finds *)

Lemma lit_i_space (a c : ascii) :
  isspace c = true -> isspace a = false -> lit_i a c = false.
Proof.
  intros Hc Ha. unfold lit_i. rewrite (isspace_lower _ Hc).
  destruct (Ascii.eqb_spec c a); [congruence | reflexivity].
Qed.

Lemma lits_extend (p t ws : str) :
  Forall (fun a => isspace a = false) p -> spaces ws ->
  lits p (t ++ ws) = extend ws (lits p t).
Proof.
  intros Hp Hws. revert t. induction Hp as [|a p Ha _ IH]; intros t.
  - destruct t; destruct ws; reflexivity.
  - destruct t as [|c t]; simpl.
    + destruct Hws as [|c ws Hc _]; [reflexivity|].
      simpl. now rewrite (lit_i_space _ _ Hc Ha).
    + destruct (lit_i a c); [|reflexivity].
      rewrite IH. destruct (lits p t) as [[m r]|]; reflexivity.
Qed.

Lemma url_chars_extend (t ws : str) :
  spaces ws ->
  url_chars (t ++ ws) = (fst (url_chars t), snd (url_chars t) ++ ws).
Proof.
  intros Hws. induction t as [|c t IH]; simpl.
  - destruct Hws as [|c ws Hc _]; [reflexivity|].
    simpl. now rewrite (isspace_not_url_char _ Hc).
  - destruct (url_char c); [|reflexivity].
    rewrite IH. destruct (url_chars t); reflexivity.
Qed.

Lemma url_chars1_extend (t ws : str) :
  spaces ws -> url_chars1 (t ++ ws) = extend ws (url_chars1 t).
Proof.
  intros Hws. unfold url_chars1. rewrite (url_chars_extend t ws Hws).
  destruct (url_chars t) as [[|c m] r]; reflexivity.
Qed.

Lemma seq_extend (m1 m2 : matcher) (ws : str) :
  (forall t, m1 (t ++ ws) = extend ws (m1 t)) ->
  (forall t, m2 (t ++ ws) = extend ws (m2 t)) ->
  forall t, seq m1 m2 (t ++ ws) = extend ws (seq m1 m2 t).
Proof.
  intros H1 H2 t. unfold seq. rewrite H1.
  destruct (m1 t) as [[a r]|]; [|reflexivity]. simpl. rewrite H2.
  destruct (m2 r) as [[b r']|]; reflexivity.
Qed.

Lemma opt_then_extend (m1 m2 : matcher) (ws : str) :
  (forall t, m1 (t ++ ws) = extend ws (m1 t)) ->
  (forall t, m2 (t ++ ws) = extend ws (m2 t)) ->
  forall t, opt_then m1 m2 (t ++ ws) = extend ws (opt_then m1 m2 t).
Proof.
  intros H1 H2 t. unfold opt_then. rewrite (seq_extend _ _ _ H1 H2).
  destruct (seq m1 m2 t) as [[a r]|]; [reflexivity|]. simpl. apply H2.
Qed.

Lemma word_boundary_extend (prev : option ascii) (t ws : str) :
  spaces ws -> word_boundary prev (t ++ ws) = word_boundary prev t.
Proof.
  intros Hws. unfold word_boundary. f_equal.
  destruct t as [|c t]; [|reflexivity].
  destruct Hws as [|c ws Hc _]; [reflexivity|].
  simpl. now apply isspace_not_word.
Qed.

Ltac no_space_literal := unfold lit; simpl; repeat constructor.

Lemma match_here_extend (prev : option ascii) (t ws : str) :
  spaces ws -> match_here prev (t ++ ws) = match_here prev t.
Proof.
  intros Hws.
  assert (Hl : forall p, Forall (fun a => isspace a = false) p ->
                         forall t, lits p (t ++ ws) = extend ws (lits p t)).
  { intros p Hp t0. now apply lits_extend. }
  assert (Hu : forall t, url_chars1 (t ++ ws) = extend ws (url_chars1 t)).
  { intros t0. now apply url_chars1_extend. }
  assert (Hh : forall t,
             seq (lits (lit "http"))
                 (opt_then (lits (lit "s")) (seq (lits (lit "://")) url_chars1))
                 (t ++ ws)
             = extend ws
                 (seq (lits (lit "http"))
                      (opt_then (lits (lit "s"))
                                (seq (lits (lit "://")) url_chars1)) t)).
  { apply seq_extend; [apply Hl; no_space_literal|].
    apply opt_then_extend; [apply Hl; no_space_literal|].
    apply seq_extend; [apply Hl; no_space_literal | exact Hu]. }
  assert (Hw : forall t, branch_www (t ++ ws) = extend ws (branch_www t)).
  { apply seq_extend; [apply Hl; no_space_literal | exact Hu]. }
  unfold match_here, branch_http.
  rewrite (word_boundary_extend prev t ws Hws), Hh, Hw.
  destruct (word_boundary prev t).
  - destruct (seq _ _ t) as [[m r]|]; [reflexivity|].
    unfold extend. destruct (branch_www t) as [[m r]|]; reflexivity.
  - unfold extend. destruct (branch_www t) as [[m r]|]; reflexivity.
Qed.

Lemma match_here_space (prev : option ascii) (c : ascii) (s : str) :
  isspace c = true -> match_here prev (c :: s) = None.
Proof.
  intros Hc. destruct (lower_not_space _ Hc) as [Hh Hw].
  unfold match_here, branch_http, branch_www, seq, lit. simpl. unfold lit_i.
  destruct (Ascii.eqb_spec (lower c) "h"); [contradiction|].
  destruct (Ascii.eqb_spec (lower c) "w"); [contradiction|].
  destruct (word_boundary prev (c :: s)); reflexivity.
Qed.

Lemma match_here_nil (prev : option ascii) : match_here prev [] = None.
Proof.
  unfold match_here, branch_http. destruct (word_boundary prev []); reflexivity.
Qed.

Lemma search_from_nil (prev : option ascii) : search_from prev [] = None.
Proof. rewrite search_from_unfold, match_here_nil. reflexivity. Qed.

Lemma search_from_spaces (ws : str) :
  spaces ws -> forall prev, search_from prev ws = None.
Proof.
  induction 1 as [|c ws Hc _ IH]; intros prev.
  - apply search_from_nil.
  - rewrite search_from_unfold, (match_here_space prev c ws Hc). apply IH.
Qed.

Lemma search_from_extend (t ws : str) :
  spaces ws -> forall prev, search_from prev (t ++ ws) = search_from prev t.
Proof.
  intros Hws. induction t as [|c t IH]; intros prev.
  - simpl app. rewrite search_from_nil. now apply search_from_spaces.
  - rewrite (search_from_unfold prev (c :: t)), <- IH.
    rewrite search_from_unfold.
    change ((c :: t) ++ ws) with (c :: t ++ ws) at 2.
    now rewrite match_here_extend.
Qed.

Lemma match_here_prev (p1 p2 : option ascii) (s : str) :
  word_before p1 = word_before p2 -> match_here p1 s = match_here p2 s.
Proof.
  intros E. unfold match_here, branch_http, word_boundary. now rewrite E.
Qed.

Lemma search_from_prev (p1 p2 : option ascii) (s : str) :
  word_before p1 = word_before p2 -> search_from p1 s = search_from p2 s.
Proof.
  intros E. rewrite !search_from_unfold, (match_here_prev _ _ s E). reflexivity.
Qed.

Lemma search_from_lstrip (s : str) : forall prev,
  word_before prev = false ->
  search_from prev (lstrip s) = search_from prev s.
Proof.
  induction s as [|c s IH]; intros prev W; [reflexivity|].
  simpl lstrip. destruct (isspace c) eqn:Hc; [|reflexivity].
  rewrite (search_from_unfold prev (c :: s)), (match_here_space prev c s Hc).
  rewrite <- (IH (Some c)) by (simpl; now apply isspace_not_word).
  apply search_from_prev. rewrite W. simpl. symmetry.
  now apply isspace_not_word.
Qed.

Lemma lstrip_split (s : str) : exists ws, s = ws ++ lstrip s /\ spaces ws.
Proof.
  induction s as [|c s (ws & E & Hws)].
  - exists []. split; [reflexivity | constructor].
  - simpl. destruct (isspace c) eqn:Hc.
    + exists (c :: ws). split; [simpl; now rewrite <- E | now constructor].
    + exists []. split; [reflexivity | constructor].
Qed.

Lemma rstrip_split (s : str) : exists ws, s = rstrip s ++ ws /\ spaces ws.
Proof.
  unfold rstrip. destruct (lstrip_split (rev s)) as (ws & E & Hws).
  exists (rev ws). split.
  - rewrite <- rev_app_distr, <- E. now rewrite rev_involutive.
  - unfold spaces. apply Forall_rev. exact Hws.
Qed.

Lemma search_from_strip (s : str) :
  search_from None (strip s) = search_from None s.
Proof.
  unfold strip. destruct (rstrip_split (lstrip s)) as (ws & E & Hws).
  rewrite <- (search_from_lstrip s None eq_refl).
  rewrite E at 2. now rewrite search_from_extend.
Qed.

(** [normalize_url] is the search on the input as it is, followed by
    the normalization of the match. *)
Lemma normalize_url_search (s : str) :
  normalize_url s = option_map Spec.canonical (search_from None s).
Proof.
  unfold normalize_url, URL_RE_search. rewrite <- (search_from_strip s).
  destruct (strip s) as [|c t] eqn:E.
  - reflexivity.
  - change (negb (truthy (c :: t))) with false. cbv iota.
    destruct (search_from None (c :: t)) as [tok|]; [|reflexivity].
    unfold option_map, Spec.canonical.
    destruct (startswith (lit "www.") (lower_str tok)); reflexivity.
Qed.

(** *** The characters of a token *)

Lemma lower_str_url_chars (p q : str) :
  lower_str p = q ->
  Forall (fun c => url_char c = true) q ->
  Forall (fun c => url_char c = true) p.
Proof.
  intros <-. induction p as [|c p IH]; simpl; intros H; [constructor|].
  inversion H; subst. constructor; [|auto].
  now rewrite <- url_char_lower.
Qed.

Ltac url_literal := unfold lit; simpl; repeat constructor.

Lemma http_token_chars (tok : str) :
  Spec.http_token tok -> Forall (fun c => url_char c = true) tok.
Proof.
  intros (p & run & -> & Hp & _ & Hrun). apply Forall_app. split; [|exact Hrun].
  destruct Hp as [Hp|Hp]; apply (lower_str_url_chars _ _ Hp); url_literal.
Qed.

Lemma www_token_chars (tok : str) :
  Spec.www_token tok -> Forall (fun c => url_char c = true) tok.
Proof.
  intros (p & run & -> & Hp & _ & Hrun). apply Forall_app. split; [|exact Hrun].
  apply (lower_str_url_chars _ _ Hp); url_literal.
Qed.

Lemma canonical_http (tok : str) :
  Spec.http_token tok ->
  Spec.canonical tok = tok
  /\ (startswith (lit "http://") (lower_str tok)
      || startswith (lit "https://") (lower_str tok)) = true.
Proof.
  intros (p & run & -> & Hp & _). unfold Spec.canonical.
  rewrite lower_str_app. destruct Hp as [-> | ->]; split; reflexivity.
Qed.

Lemma canonical_www (tok : str) :
  Spec.www_token tok -> Spec.canonical tok = lit "https://" ++ tok.
Proof.
  intros (p & run & -> & Hp & _). unfold Spec.canonical.
  rewrite lower_str_app, Hp. reflexivity.
Qed.

(** What [normalize_url] returns is the normalization of a token that
    the pattern takes somewhere in the input. *)
Lemma normalize_url_token (s u : str) :
  normalize_url s = Some u ->
  exists prev tok, Spec.token_after prev tok /\ u = Spec.canonical tok.
Proof.
  rewrite normalize_url_search. intros H.
  pose proof (search_from_spec s None) as S.
  destruct (search_from None s) as [tok|]; [|discriminate].
  destruct S as (l & r & _ & T & _). inversion H; subst. eauto.
Qed.

Lemma normalize_url_shape (s u : str) :
  normalize_url s = Some u ->
  (startswith (lit "http://") (lower_str u)
   || startswith (lit "https://") (lower_str u)) = true
  /\ Forall (fun c => url_char c = true) u.
Proof.
  intros H. apply normalize_url_token in H as (prev & tok & [[T _]|T] & ->).
  - destruct (canonical_http _ T) as [-> Hs]. split; [exact Hs|].
    now apply http_token_chars.
  - rewrite (canonical_www _ T). split; [reflexivity|].
    apply Forall_app. split; [url_literal | now apply www_token_chars].
Qed.

Lemma normalize_url_truthy (s : str) (u : option str) :
  normalize_url s = u -> truthy_opt u = is_some u.
Proof.
  intros H. destruct u as [u|]; [|reflexivity].
  apply normalize_url_shape in H as [Hs _].
  destruct u; [discriminate Hs | reflexivity].
Qed.

End Matchers.

(** ** Lists *)

Section Lists.

Context {A : Type}.

Lemma len_nonneg (l : list A) : (0 <= len l)%Z.
Proof. unfold len. lia. Qed.

Lemma len_app (l1 l2 : list A) : len (l1 ++ l2) = (len l1 + len l2)%Z.
Proof. unfold len. rewrite length_app. lia. Qed.

Lemma getitem_nonneg (l : list A) (i : Z) :
  (0 <= i)%Z -> getitem l i =
                match nth_error l (Z.to_nat i) with
                | Some a => Ok a
                | None => Raise IndexError
                end.
Proof.
  intros H. unfold getitem.
  destruct (Z.ltb_spec i 0); [lia|].
  destruct (Z.ltb_spec i 0); [lia|]. reflexivity.
Qed.

Lemma getitem_in_range (l : list A) (i : Z) :
  (0 <= i < len l)%Z -> exists a, getitem l i = Ok a /\ nth_error l (Z.to_nat i) = Some a.
Proof.
  intros H. rewrite getitem_nonneg by lia.
  destruct (nth_error l (Z.to_nat i)) as [a|] eqn:E; [eauto|].
  apply nth_error_None in E. unfold len in H. lia.
Qed.

Lemma getitem_too_large (l : list A) (i : Z) :
  (len l <= i)%Z -> getitem l i = Raise IndexError.
Proof.
  intros H. pose proof (len_nonneg l). rewrite getitem_nonneg by lia.
  destruct (nth_error l (Z.to_nat i)) as [a|] eqn:E; [|reflexivity].
  assert (nth_error l (Z.to_nat i) <> None) as N by congruence.
  apply nth_error_Some in N. unfold len in H. lia.
Qed.

Lemma getitem_too_small (l : list A) (i : Z) :
  (i < - len l)%Z -> getitem l i = Raise IndexError.
Proof.
  intros H. pose proof (len_nonneg l). unfold getitem.
  destruct (Z.ltb_spec i 0); [|lia].
  destruct (Z.ltb_spec (i + len l) 0); [reflexivity | lia].
Qed.

Lemma getitem_negative (l : list A) (i : Z) :
  (- len l <= i < 0)%Z -> getitem l i = getitem l (i + len l).
Proof.
  intros H. unfold getitem at 1.
  destruct (Z.ltb_spec i 0); [|lia].
  destruct (Z.ltb_spec (i + len l) 0); [lia|].
  now rewrite getitem_nonneg by lia.
Qed.

Lemma getitem_In (l : list A) (i : Z) (a : A) : getitem l i = Ok a -> In a l.
Proof.
  unfold getitem. destruct (_ <? 0)%Z; [discriminate|].
  destruct (nth_error l _) eqn:E; [|discriminate].
  intros H; inversion H; subst. eapply nth_error_In; eauto.
Qed.

Lemma getitem_Ok_nonempty (l : list A) (i : Z) (a : A) :
  getitem l i = Ok a -> (0 < len l)%Z.
Proof.
  intros H. apply getitem_In in H. destruct l; [contradiction|].
  unfold len. simpl. lia.
Qed.

Lemma enumerate_app (i : Z) (l1 l2 : list A) :
  enumerate i (l1 ++ l2) = enumerate i l1 ++ enumerate (i + len l1) l2.
Proof.
  revert i. induction l1 as [|a l1 IH]; intros i; simpl.
  - unfold len. simpl. now rewrite Z.add_0_r.
  - rewrite IH. do 3 f_equal. unfold len. cbn [List.length]. lia.
Qed.

Lemma enumerate_In (l : list A) : forall (i j : Z) (a : A),
  In (j, a) (enumerate i l) ->
  (i <= j < i + len l)%Z /\ nth_error l (Z.to_nat (j - i)) = Some a.
Proof.
  induction l as [|x l IH]; intros i j a H; simpl in H; [contradiction|].
  destruct H as [H|H].
  - inversion H; subst. unfold len. cbn [List.length]. split; [lia|].
    now rewrite Z.sub_diag.
  - apply IH in H as [H1 H2]. unfold len in *. cbn [List.length]. split; [lia|].
    replace (Z.to_nat (j - i)) with (S (Z.to_nat (j - (i + 1)))) by lia.
    exact H2.
Qed.

End Lists.

(** ** [row_lines] *)

Lemma str_eqb_eq (a b : str) : str_eqb a b = true <-> a = b.
Proof.
  revert b. induction a as [|x a IH]; intros [|y b]; simpl; split;
    try discriminate; try reflexivity.
  - intros H. apply andb_prop in H as [H1 H2].
    apply Ascii.eqb_eq in H1. apply IH in H2. congruence.
  - intros H. inversion H; subst. rewrite Ascii.eqb_refl. simpl. now apply IH.
Qed.

Lemma loc_combine (col : str) (cols : list str) : forall r : list cell,
  In col cols -> List.length cols = List.length r ->
  exists v, loc (combine cols r) col = Ok v.
Proof.
  induction cols as [|c cols IH]; intros r Hin Hlen; [contradiction|].
  destruct r as [|v r]; [discriminate|]. simpl.
  destruct (str_eqb c col) eqn:E; [eauto|].
  destruct Hin as [->|Hin].
  - assert (str_eqb col col = true) by now apply str_eqb_eq. congruence.
  - apply IH; auto.
Qed.

Lemma url_positions_from_cons (i : Z) (l : line) (ls : list line) :
  url_positions_from i (l :: ls) =
  (if has_url l then [i] else []) ++ url_positions_from (i + 1) ls.
Proof.
  unfold url_positions_from. simpl. destruct (has_url l); reflexivity.
Qed.

Lemma url_positions_from_app (i : Z) (l1 l2 : list line) :
  url_positions_from i (l1 ++ l2) =
  url_positions_from i l1 ++ url_positions_from (i + len l1) l2.
Proof.
  unfold url_positions_from.
  now rewrite enumerate_app, filter_app, map_app.
Qed.

Lemma url_positions_from_In (lines : list line) (i j : Z) :
  In j (url_positions_from i lines) <->
  (i <= j < i + len lines)%Z
  /\ exists l, nth_error lines (Z.to_nat (j - i)) = Some l /\ has_url l = true.
Proof.
  revert i. induction lines as [|x lines IH]; intros i.
  - unfold url_positions_from, len. simpl. split; [contradiction|].
    intros [H _]. lia.
  - rewrite url_positions_from_cons, in_app_iff, IH.
    unfold len. cbn [List.length]. split.
    + intros [H|(H & l & Hn & Hl)].
      * destruct (has_url x) eqn:Hx; [|contradiction].
        destruct H as [<-|[]]. split; [lia|].
        exists x. now rewrite Z.sub_diag.
      * unfold len in H. split; [lia|]. exists l. split; [|exact Hl].
        replace (Z.to_nat (j - i)) with (S (Z.to_nat (j - (i + 1)))) by lia.
        exact Hn.
    + intros (H & l & Hn & Hl).
      destruct (Z.eq_dec j i) as [->|Hne].
      * left. rewrite Z.sub_diag in Hn. simpl in Hn. inversion Hn; subst.
        rewrite Hl. now left.
      * right. unfold len. split; [lia|]. exists l. split; [|exact Hl].
        replace (Z.to_nat (j - i)) with (S (Z.to_nat (j - (i + 1)))) in Hn by lia.
        exact Hn.
Qed.

Lemma url_positions_from_sorted (lines : list line) : forall i,
  StronglySorted Z.lt (url_positions_from i lines).
Proof.
  induction lines as [|x lines IH]; intros i.
  - constructor.
  - rewrite url_positions_from_cons.
    destruct (has_url x); simpl; [|apply IH].
    constructor; [apply IH|].
    apply Forall_forall. intros j Hj.
    apply url_positions_from_In in Hj as [Hj _]. lia.
Qed.

Lemma row_lines_step_eq (row : Series) (lines : list line) (idxs : list Z) (col : str) :
  row_lines_step row (lines, idxs) col =
  (v <- loc row col ;;
   Ok (lines ++ [line_of col v], idxs ++ url_positions_from (len lines) [line_of col v])).
Proof.
  unfold row_lines_step. destruct (loc row col) as [v|e]; [|reflexivity].
  cbn [bind]. cbv zeta. rewrite url_positions_from_cons.
  unfold has_url, url_of, line_of. cbn [snd].
  replace (len (lines ++ [_]) - 1)%Z with (len lines)
    by (rewrite len_app; unfold len; simpl; lia).
  destruct (truthy_opt (normalize_url (to_str v))).
  - reflexivity.
  - unfold url_positions_from. simpl. now rewrite app_nil_r.
Qed.

(** The lines built for the columns [cols] of the row [row]. *)
Lemma row_lines_loop_spec (row : Series) (cols : list str) :
  forall lines idxs lines' idxs',
    row_lines_loop row cols (lines, idxs) = Ok (lines', idxs') ->
    exists new,
      lines' = lines ++ new
      /\ idxs' = idxs ++ url_positions_from (len lines) new
      /\ Forall2 (fun col l => exists v, loc row col = Ok v /\ l = line_of col v)
                 cols new.
Proof.
  induction cols as [|col cols IH]; intros lines idxs lines' idxs' H.
  - simpl in H. inversion H; subst. exists [].
    rewrite !app_nil_r. repeat split; auto.
  - cbn [row_lines_loop] in H. rewrite row_lines_step_eq in H.
    destruct (loc row col) as [v|e] eqn:L; [|discriminate]. cbn [bind] in H.
    apply IH in H as (new & -> & -> & F).
    exists (line_of col v :: new). repeat split.
    + now rewrite <- app_assoc.
    + rewrite <- app_assoc. f_equal.
      change (line_of col v :: new) with ([line_of col v] ++ new).
      rewrite url_positions_from_app. do 2 f_equal.
      rewrite len_app. reflexivity.
    + constructor; eauto.
Qed.

Lemma row_lines_loop_total (row : Series) (cols : list str) :
  Forall (fun col => exists v, loc row col = Ok v) cols ->
  forall acc, exists acc', row_lines_loop row cols acc = Ok acc'.
Proof.
  induction 1 as [|col cols (v & Hv) _ IH]; intros [lines idxs];
    cbn [row_lines_loop].
  - eauto.
  - rewrite row_lines_step_eq, Hv. cbn [bind]. apply IH.
Qed.

Lemma row_lines_spec (df : DataFrame) (i : Z) (lines : list line) (idxs : list Z) :
  row_lines df i = Ok (lines, idxs) ->
  exists r,
    getitem (rows df) i = Ok r
    /\ idxs = url_positions lines
    /\ Forall2 (fun col l => exists v, loc (combine (columns df) r) col = Ok v
                                       /\ l = line_of col v)
               (columns df) lines.
Proof.
  unfold row_lines, iloc. destruct (getitem (rows df) i) as [r|e]; [|discriminate].
  simpl. intros H. apply row_lines_loop_spec in H as (new & -> & -> & F).
  exists r. repeat split; auto.
Qed.

Lemma row_lines_total (df : DataFrame) (i : Z) :
  rectangular df -> (0 <= i < nrows df)%Z ->
  exists lines idxs, row_lines df i = Ok (lines, idxs).
Proof.
  intros R H. unfold row_lines, iloc.
  destruct (getitem_in_range (rows df) i H) as (r & -> & Hn). simpl.
  apply nth_error_In in Hn.
  assert (Hlen : List.length r = List.length (columns df)).
  { unfold rectangular in R. rewrite Forall_forall in R. now apply R. }
  destruct (row_lines_loop_total (combine (columns df) r) (columns df))
    with (acc := (@nil line, @nil Z)) as ([lines idxs] & E).
  - apply Forall_forall. intros col Hc. apply loc_combine; auto.
  - eauto.
Qed.

Lemma row_lines_Ok_nonempty (df : DataFrame) (i : Z) (v : list line * list Z) :
  row_lines df i = Ok v -> (nrows df =? 0)%Z = false.
Proof.
  unfold row_lines, iloc, nrows.
  destruct (getitem (rows df) i) as [r|e] eqn:G; [|discriminate].
  intros _. apply getitem_Ok_nonempty in G. apply Z.eqb_neq. lia.
Qed.

Lemma url_positions_getitem (lines : list line) (j : Z) :
  In j (url_positions lines) ->
  exists l u, getitem lines j = Ok l /\ url_of l = Some u /\ u <> [].
Proof.
  intros H. apply url_positions_from_In in H as (R & l & Hn & Hl).
  rewrite Z.sub_0_r in Hn. rewrite getitem_nonneg, Hn by lia.
  unfold has_url in Hl. destruct (url_of l) as [u|] eqn:Hu; [|discriminate].
  exists l, u. split; [reflexivity|]. split; [exact Hu|].
  destruct u; [discriminate Hl | discriminate].
Qed.

(** ** [draw] *)

Lemma draw_ok (df : DataFrame) (r f : Z) (lines : list line) (idxs : list Z) :
  row_lines df r = Ok (lines, idxs) ->
  exists scr, draw df r f = Ok (scr, clamp_focus idxs f).
Proof.
  intros H. pose proof (row_lines_Ok_nonempty _ _ _ H) as Hn.
  pose proof (row_lines_spec _ _ _ _ H) as (r0 & _ & Hidx & _).
  unfold draw, clamp_focus. rewrite Hn, H. cbn [bind].
  destruct (truthy idxs) eqn:T; cbn [negb bind]; [|eauto].
  assert (Hpos : (0 < len idxs)%Z).
  { destruct idxs; [discriminate T|]. unfold len. cbn [List.length]. lia. }
  set (f' := Z.max 0 (Z.min f (len idxs - 1))).
  assert (Hr : (0 <= f' < len idxs)%Z) by (unfold f'; lia).
  destruct (getitem_in_range idxs f' Hr) as (j & Hj & _).
  assert (Hin : In j (url_positions lines)).
  { rewrite <- Hidx. eapply getitem_In; eauto. }
  destruct (url_positions_getitem _ _ Hin) as (l & u & Hl & _).
  rewrite Hj. cbn [bind]. rewrite Hj. cbn [bind]. rewrite Hl. cbn [bind].
  eauto.
Qed.

Lemma clamp_focus_in_range (idxs : list Z) (f : Z) :
  idxs <> [] -> (0 <= clamp_focus idxs f < len idxs)%Z.
Proof.
  intros H. unfold clamp_focus. destruct idxs as [|i idxs]; [congruence|].
  cbn [truthy]. unfold len. cbn [List.length]. lia.
Qed.

Lemma clamp_focus_id (idxs : list Z) (f : Z) :
  (0 <= f < len idxs)%Z \/ idxs = [] -> clamp_focus idxs f = f.
Proof.
  unfold clamp_focus. intros [H| ->]; [|reflexivity].
  destruct idxs; cbn [truthy]; [reflexivity | lia].
Qed.

(** ** The loop of the terminal viewer *)

Lemma step_row_in_range (df : DataFrame) (m : move) (r : Z) :
  row_in_range df r -> row_in_range df (step_row df m r).
Proof.
  unfold row_in_range, step_row. intros H. destruct m.
  - destruct (Z.ltb_spec r (nrows df - 1)); lia.
  - destruct (Z.gtb_spec r 0); lia.
Qed.

(** A key that is neither [q] nor a move raises, whatever the
    cursors. *)
Lemma handle_key_raises (df : DataFrame) (st : nav) (ch : key) :
  ch = Key_TAB \/ ch = Key_ENTER \/ ch = Key_other ->
  handle_key df st ch = Raise AttributeError.
Proof. intros [->|[->| ->]]; reflexivity. Qed.

(** What the loop opens: nothing. *)
Lemma handle_key_opens_nothing (df : DataFrame) (st st' : nav) (ch : key)
      (us : list str) :
  handle_key df st ch = Ok (st', us) -> us = [].
Proof.
  destruct ch; cbn [handle_key]; try discriminate.
  - intros H; now inversion H.
  - destruct (_ <? _)%Z; intros H; now inversion H.
  - destruct (_ >? _)%Z; intros H; now inversion H.
Qed.

Lemma loop_pass_move (df : DataFrame) (st : nav) (m : move) :
  rectangular df -> row_in_range df (row_idx st) ->
  exists f,
    loop_pass df st (move_key m)
    = Ok ({| row_idx := step_row df m (row_idx st); url_focus_i := f |}, Some []).
Proof.
  intros R H. destruct (row_lines_total df (row_idx st) R H) as (lines & idxs & L).
  destruct (draw_ok df (row_idx st) (url_focus_i st) lines idxs L) as (scr & D).
  unfold loop_pass. rewrite D. cbn [bind].
  destruct m; cbn [move_key handle_key step_row row_idx url_focus_i].
  - destruct (_ <? _)%Z; cbn [bind]; eauto.
  - destruct (_ >? _)%Z; cbn [bind]; eauto.
Qed.

Lemma loop_wait_ok (df : DataFrame) (st : nav) (opened : list str) :
  rectangular df -> row_in_range df (row_idx st) ->
  exists f,
    loop df st [] opened
    = Ok ({| row_idx := row_idx st; url_focus_i := f |}, opened).
Proof.
  intros R H. destruct (row_lines_total df (row_idx st) R H) as (lines & idxs & L).
  destruct (draw_ok df (row_idx st) (url_focus_i st) lines idxs L) as (scr & D).
  cbn [loop]. rewrite D. cbn [bind]. eauto.
Qed.

(** The loop returns on every sequence of moves, with its record
    cursor within the table, having opened nothing. *)
Lemma loop_moves_ok (df : DataFrame) (moves : list move) :
  rectangular df ->
  forall st opened,
    row_in_range df (row_idx st) ->
    exists st', loop df st (map move_key moves) opened = Ok (st', opened)
                /\ row_in_range df (row_idx st').
Proof.
  intros R. induction moves as [|m moves IH]; intros st opened H.
  - destruct (loop_wait_ok df st opened R H) as (f & L).
    eexists. split; [exact L | exact H].
  - destruct (loop_pass_move df st m R H) as (f & P).
    cbn [map loop]. rewrite P. cbn [bind]. rewrite app_nil_r.
    apply IH. cbn [row_idx]. now apply step_row_in_range.
Qed.

(** After any moves, a key that is neither [q] nor a move raises. *)
Lemma loop_moves_then_raises (df : DataFrame) (moves : list move) (ch : key)
      (keys : list key) :
  rectangular df ->
  ch = Key_TAB \/ ch = Key_ENTER \/ ch = Key_other ->
  forall st opened,
    row_in_range df (row_idx st) ->
    loop df st (map move_key moves ++ ch :: keys) opened = Raise AttributeError.
Proof.
  intros R Hch. induction moves as [|m moves IH]; intros st opened H.
  - destruct (row_lines_total df (row_idx st) R H) as (lines & idxs & L).
    destruct (draw_ok df (row_idx st) (url_focus_i st) lines idxs L) as (scr & D).
    cbn [map app loop]. unfold loop_pass. rewrite D. cbn [bind].
    rewrite (handle_key_raises df _ ch Hch).
    destruct Hch as [->|[->| ->]]; reflexivity.
  - destruct (loop_pass_move df st m R H) as (f & P).
    cbn [map app loop]. rewrite P. cbn [bind].
    apply IH. cbn [row_idx]. now apply step_row_in_range.
Qed.

(** ** The desktop viewer *)

Lemma iloc_total (df : DataFrame) (i : Z) :
  rectangular df -> row_in_range df i ->
  exists r, iloc df i = Ok r
            /\ Forall (fun col => exists v, loc r col = Ok v) (columns df).
Proof.
  intros R H. unfold iloc.
  destruct (getitem_in_range (rows df) i H) as (r & -> & Hn). cbn [bind].
  apply nth_error_In in Hn.
  assert (Hlen : List.length r = List.length (columns df)).
  { unfold rectangular in R. rewrite Forall_forall in R. now apply R. }
  eexists. split; [reflexivity|].
  apply Forall_forall. intros col Hc. apply loc_combine; auto.
Qed.

Lemma render_row_loop_total (r : Series) (cols : list str) :
  Forall (fun col => exists v, loc r col = Ok v) cols ->
  exists ws, Gui.render_row_loop r cols = Ok ws.
Proof.
  induction 1 as [|col cols (v & Hv) _ (ws & IH)]; cbn [Gui.render_row_loop].
  - eauto.
  - rewrite Hv, IH. cbn [bind]. eauto.
Qed.

Lemma render_row_ok (self : Gui.App) :
  rectangular (Gui.df self) -> row_in_range (Gui.df self) (Gui.row self) ->
  exists out,
    Gui.render_row self =
    Ok ({| Gui.df := Gui.df self; Gui.row := Gui.row self;
           Gui.focused_url := None |}, out).
Proof.
  intros R H. unfold Gui.render_row.
  assert (Hn : (nrows (Gui.df self) =? 0)%Z = false).
  { apply Z.eqb_neq. unfold row_in_range in H. lia. }
  rewrite Hn. cbn [Gui.df Gui.row].
  destruct (iloc_total _ _ R H) as (r & -> & F). cbn [bind].
  destruct (render_row_loop_total r _ F) as (ws & ->). cbn [bind]. eauto.
Qed.

Lemma gui_handle_ok (self : Gui.App) (e : GuiLoop.event) :
  rectangular (Gui.df self) -> row_in_range (Gui.df self) (Gui.row self) ->
  exists self' us,
    GuiLoop.handle self e = Ok (self', us)
    /\ Gui.df self' = Gui.df self
    /\ row_in_range (Gui.df self') (Gui.row self').
Proof.
  intros R H. pose proof H as H0. unfold row_in_range in H0.
  destruct e; cbn [GuiLoop.handle].
  - unfold Gui.prev_row.
    destruct (nrows (Gui.df self) =? 0)%Z; [cbn [bind]; eauto|].
    destruct (Z.gtb_spec (Gui.row self) 0); [|cbn [bind]; eauto].
    edestruct (render_row_ok
                 {| Gui.df := Gui.df self; Gui.row := Gui.row self - 1;
                    Gui.focused_url := Gui.focused_url self |}) as (out & E).
    + exact R.
    + unfold row_in_range. cbn [Gui.df Gui.row]. lia.
    + rewrite E. cbn [bind Gui.df Gui.row]. do 2 eexists.
      split; [reflexivity|]. cbn [Gui.df Gui.row]. unfold row_in_range.
      split; [reflexivity | lia].
  - unfold Gui.next_row.
    destruct (nrows (Gui.df self) =? 0)%Z; [cbn [bind]; eauto|].
    destruct (Z.ltb_spec (Gui.row self) (nrows (Gui.df self) - 1));
      [|cbn [bind]; eauto].
    edestruct (render_row_ok
                 {| Gui.df := Gui.df self; Gui.row := Gui.row self + 1;
                    Gui.focused_url := Gui.focused_url self |}) as (out & E).
    + exact R.
    + unfold row_in_range. cbn [Gui.df Gui.row]. lia.
    + rewrite E. cbn [bind Gui.df Gui.row]. do 2 eexists.
      split; [reflexivity|]. cbn [Gui.df Gui.row]. unfold row_in_range.
      split; [reflexivity | lia].
  - eauto.
Qed.

Lemma gui_run_ok (events : list GuiLoop.event) :
  forall self opened,
    rectangular (Gui.df self) -> row_in_range (Gui.df self) (Gui.row self) ->
    exists self' us,
      GuiLoop.run self events opened = Ok (self', us)
      /\ Gui.df self' = Gui.df self
      /\ row_in_range (Gui.df self') (Gui.row self').
Proof.
  induction events as [|e events IH]; intros self opened R H; cbn [GuiLoop.run].
  - eauto.
  - destruct (gui_handle_ok self e R H) as (self1 & us & -> & Hd & H1).
    cbn [bind]. rewrite <- Hd in R.
    destruct (IH self1 (opened ++ us) R H1) as (self' & us' & -> & Hd' & H').
    exists self', us'. split; [reflexivity|]. split; [congruence | exact H'].
Qed.

(** ** The URLs handed to the browser *)

Lemma url_chars_openable (u : str) :
  Forall (fun c => Re.url_char c = true) u ->
  Forall (fun c => isspace c = false
                   /\ c <> "<"%char /\ c <> ">"%char /\ c <> "034"%char) u.
Proof.
  apply Forall_impl. intros c H. unfold Re.url_char in H.
  apply negb_true_iff in H.
  apply orb_false_iff in H as [H H4]. apply orb_false_iff in H as [H H3].
  apply orb_false_iff in H as [H1 H2].
  repeat split; auto; intros ->; discriminate.
Qed.

Lemma normalize_url_is_openable (s u : str) :
  normalize_url s = Some u -> openable u.
Proof.
  intros H. apply normalize_url_shape in H as [H1 H2].
  split; [exact H1 | now apply url_chars_openable].
Qed.

Lemma row_lines_urls (df : DataFrame) (i : Z) (lines : list line) (idxs : list Z) :
  row_lines df i = Ok (lines, idxs) ->
  forall l u, In l lines -> url_of l = Some u -> openable u.
Proof.
  intros H. apply row_lines_spec in H as (r & _ & _ & F).
  induction F as [|col l cols lines (v & _ & ->) _ IH]; intros l' u Hin Hu.
  - contradiction.
  - destruct Hin as [<-|Hin]; [|eauto].
    unfold url_of, line_of in Hu. cbn [snd] in Hu.
    eapply normalize_url_is_openable; eauto.
Qed.

Lemma loop_opens_nothing (df : DataFrame) (keys : list key) :
  forall st opened st' us,
    loop df st keys opened = Ok (st', us) -> us = opened.
Proof.
  induction keys as [|ch keys IH]; intros st opened st' us H; cbn [loop] in H.
  - destruct (draw df (row_idx st) (url_focus_i st)) as [[scr f]|e]; [|discriminate].
    cbn [bind] in H. now inversion H.
  - unfold loop_pass in H.
    destruct (draw df (row_idx st) (url_focus_i st)) as [[scr f]|e]; [|discriminate].
    cbn [bind] in H.
    destruct ch; try (now inversion H);
      match type of H with
      | context [handle_key ?d ?s ?k] =>
          destruct (handle_key d s k) as [[st1 o]|e] eqn:K; [|discriminate];
          cbn [bind] in H; apply IH in H;
          apply handle_key_opens_nothing in K; subst o;
          now rewrite app_nil_r in H
      end.
Qed.

(** ** Boundaries *)

Lemma loop_rights_at_last (df : DataFrame) (k : nat) :
  rectangular df ->
  forall st opened,
    row_in_range df (row_idx st) -> row_idx st = (nrows df - 1)%Z ->
    exists st' us, loop df st (repeat Key_RIGHT k) opened = Ok (st', us)
                   /\ row_idx st' = row_idx st.
Proof.
  intros R. induction k as [|k IH]; intros st opened H E.
  - destruct (loop_wait_ok df st opened R H) as (f & L).
    eexists _, opened. split; [exact L | reflexivity].
  - destruct (loop_pass_move df st Next R H) as (f & P).
    cbn [move_key] in P. cbn [repeat loop]. rewrite P. cbn [bind].
    assert (S : step_row df Next (row_idx st) = row_idx st).
    { unfold step_row.
      destruct (Z.ltb_spec (row_idx st) (nrows df - 1)); [lia | reflexivity]. }
    rewrite S.
    destruct (IH {| row_idx := row_idx st; url_focus_i := f |} (opened ++ []) H E)
      as (st' & us & L & E').
    exists st', us. split; [exact L | exact E'].
Qed.

Lemma gui_run_empty (self : Gui.App) (events : list GuiLoop.event) :
  nrows (Gui.df self) = 0%Z -> Gui.focused_url self = None ->
  forall opened, GuiLoop.run self events opened = Ok (self, opened).
Proof.
  intros Hn Hf. induction events as [|e events IH]; intros opened;
    cbn [GuiLoop.run]; [reflexivity|].
  assert (GuiLoop.handle self e = Ok (self, [])) as ->.
  { destruct e; cbn [GuiLoop.handle].
    - unfold Gui.prev_row. rewrite Hn. reflexivity.
    - unfold Gui.next_row. rewrite Hn. reflexivity.
    - unfold Gui.open_focused_url. rewrite Hf. reflexivity. }
  cbn [bind]. rewrite app_nil_r. apply IH.
Qed.

(** ** A text that is one token as a whole *)

Lemma class_prefix_unique (tok : str) : forall tok0 r r0,
  tok ++ r = tok0 ++ r0 ->
  Forall (fun c => Re.url_char c = true) tok ->
  Forall (fun c => Re.url_char c = true) tok0 ->
  Spec.maximal r -> Spec.maximal r0 -> tok = tok0.
Proof.
  induction tok as [|c tok IH]; intros tok0 r r0 E F F0 M M0.
  - destruct tok0 as [|c0 tok0]; [reflexivity|].
    simpl in E. subst r. inversion F0; subst. simpl in M. congruence.
  - destruct tok0 as [|c0 tok0].
    + simpl in E. subst r0. inversion F; subst. simpl in M0. congruence.
    + simpl in E. injection E as -> E. f_equal.
      inversion F; inversion F0; subst. eapply IH; eauto.
Qed.

Lemma token_after_chars (prev : option ascii) (tok : str) :
  Spec.token_after prev tok -> Forall (fun c => Re.url_char c = true) tok.
Proof.
  intros [[T _]|T]; [now apply http_token_chars | now apply www_token_chars].
Qed.

Lemma match_here_whole (prev : option ascii) (tok : str) :
  Spec.token_after prev tok -> Re.match_here prev tok = Some tok.
Proof.
  intros T. pose proof (@match_here_complete prev tok [] T) as C.
  rewrite app_nil_r in C.
  destruct (Re.match_here prev tok) as [m|] eqn:M; [|congruence].
  apply match_here_sound in M as (r & E & Tm & Mx).
  f_equal. symmetry.
  apply (class_prefix_unique tok m [] r).
  - now rewrite app_nil_r.
  - eapply token_after_chars; eauto.
  - eapply token_after_chars; eauto.
  - exact I.
  - exact Mx.
Qed.

Lemma normalize_url_whole_token (s : str) :
  Spec.token_after None (strip s) ->
  normalize_url s = Some (Spec.canonical (strip s)).
Proof.
  intros T. rewrite normalize_url_search, <- search_from_strip.
  rewrite search_from_unfold, (match_here_whole None (strip s) T). reflexivity.
Qed.

Lemma gui_branches_agree (s : str) :
  Gui.render_row_url s = Gui.open_all_urls_url s.
Proof.
  unfold Gui.render_row_url, Gui.open_all_urls_url.
  destruct (startswith (lit "www.") s); reflexivity.
Qed.


(** ** Decimal digits *)



(** ** What [draw] shows when the record has no URL field *)

Lemma no_highlight (lines : list line) : forall i,
  (0 <= i)%Z ->
  map (fun '(i, (col, shown, url)) =>
         ((col, shown, url), (i =? -1)%Z && is_some url))
      (enumerate i lines)
  = map (fun l => (l, false)) lines.
Proof.
  induction lines as [|[[col shown] url] lines IH]; intros i Hi; simpl.
  - reflexivity.
  - rewrite IH by lia. destruct (Z.eqb_spec i (-1)); [lia | reflexivity].
Qed.

Lemma draw_no_focus (df : DataFrame) (r f : Z) (lines : list line) :
  row_lines df r = Ok (lines, []) ->
  draw df r f = Ok (ScreenRow (map (fun l => (l, false)) lines) None, f).
Proof.
  intros H. pose proof (row_lines_Ok_nonempty _ _ _ H) as Hn.
  unfold draw. rewrite Hn, H. cbn [bind truthy negb].
  now rewrite no_highlight by lia.
Qed.

(** ** Texts without white space, prefixes, and texts without a token *)

Lemma lstrip_no_space (s : str) :
  Forall (fun c => isspace c = false) s -> lstrip s = s.
Proof. intros [|c s' Hc _]; [reflexivity|]. simpl. now rewrite Hc. Qed.

Lemma strip_no_space (s : str) :
  Forall (fun c => isspace c = false) s -> strip s = s.
Proof.
  intros H. unfold strip, rstrip. rewrite (lstrip_no_space s H).
  rewrite lstrip_no_space by now apply Forall_rev.
  apply rev_involutive.
Qed.

Lemma url_chars_no_space (s : str) :
  Forall (fun c => Re.url_char c = true) s ->
  Forall (fun c => isspace c = false) s.
Proof. apply Forall_impl. intros c. apply url_char_not_space. Qed.

Lemma render_row_url_shape (s u : str) :
  Gui.render_row_url s = Some u ->
  Gui.is_http u = true /\ truthy u = true.
Proof.
  unfold Gui.render_row_url.
  destruct (startswith (lit "www.") s).
  - intros H; inversion H; subst. split; reflexivity.
  - destruct (Gui.is_http s) eqn:E; [|discriminate].
    intros H; inversion H; subst. split; [exact E|].
    destruct u; [discriminate E | reflexivity].
Qed.

Lemma uint_digits (d : Decimal.uint) :
  Forall (fun c => in_range 48 57 c = true)
         (list_ascii_of_string (NilEmpty.string_of_uint d)).
Proof. induction d; simpl; constructor; auto. Qed.










Lemma open_all_urls_url_http (s u : str) :
  Gui.open_all_urls_url s = Some u -> Gui.is_http u = true.
Proof.
  unfold Gui.open_all_urls_url. cbv zeta.
  destruct (startswith (lit "www.") s).
  - destruct (Gui.is_http (lit "https://" ++ s)) eqn:E; [|discriminate].
    intros H; inversion H; subst. exact E.
  - destruct (Gui.is_http s) eqn:E; [|discriminate].
    intros H; inversion H; subst. exact E.
Qed.

Lemma open_all_urls_loop_http (r : Series) (cols : list str) :
  forall urls us,
    Gui.open_all_urls_loop r cols urls = Ok us ->
    Forall (fun u => Gui.is_http u = true) urls ->
    Forall (fun u => Gui.is_http u = true) us.
Proof.
  induction cols as [|col cols IH]; intros urls us H F;
    cbn [Gui.open_all_urls_loop] in H.
  - inversion H; subst. exact F.
  - destruct (loc r col) as [v|e]; [|discriminate]. cbn [bind] in H.
    destruct (Gui.open_all_urls_detect v) as [u|] eqn:D; [|eauto].
    apply (IH _ _ H). apply Forall_app. split; [exact F|].
    constructor; [|constructor].
    unfold Gui.open_all_urls_detect in D.
    destruct (is_nan v); [discriminate|]. eapply open_all_urls_url_http; eauto.
Qed.

Lemma normalize_url_nonempty (s u : str) : normalize_url s = Some u -> u <> [].
Proof.
  intros H. apply normalize_url_shape in H as [H _]. intros ->. discriminate H.
Qed.

Lemma Forall2_nth_error_l {A B : Type} (P : A -> B -> Prop)
      (la : list A) (lb : list B) (j : nat) (a : A) :
  Forall2 P la lb -> nth_error la j = Some a ->
  exists b, nth_error lb j = Some b /\ P a b.
Proof.
  intros F. revert j. induction F as [|x y la lb Hxy _ IH]; intros j Hj.
  - destruct j; discriminate.
  - destruct j as [|j]; simpl in *.
    + inversion Hj; subst. eauto.
    + now apply IH.
Qed.



(** ** Examples *)

Example strip_example : strip (lit "  www.a.b  ") = lit "www.a.b".
Proof. reflexivity. Qed.

Example str_of_int_examples :
  str_of_int 0 = lit "0" /\ str_of_int 42 = lit "42" /\ str_of_int (-7) = lit "-7".
Proof. repeat split; reflexivity. Qed.

Example normalize_url_glued_www :
  normalize_url (lit "xwww.a.b") = Some (lit "https://www.a.b").
Proof. reflexivity. Qed.

Example normalize_url_upper_case :
  normalize_url (lit "HTTPS://A.b c") = Some (lit "HTTPS://A.b").
Proof. reflexivity. Qed.

Example normalize_url_bare_scheme : normalize_url (lit "https://") = None.
Proof. reflexivity. Qed.

Example normalize_url_after_punctuation :
  normalize_url (lit "(see:https://a.b)") = Some (lit "https://a.b)").
Proof. reflexivity. Qed.

Example row_lines_scenario_last :
  row_lines scenario 2
  = Ok ([(lit "name", lit "www.c.example", Some (lit "https://www.c.example"));
         (lit "site", lit "see http://d.example/x now",
          Some (lit "http://d.example/x"))],
        [0; 1]%Z).
Proof. reflexivity. Qed.

Example interactive_moves_then_quits :
  interactive scenario [Key_RIGHT; Key_RIGHT; Key_q; Key_ENTER]
  = Ok {| cursors := Some {| row_idx := 2; url_focus_i := 0 |}; opened := [] |}.
Proof. reflexivity. Qed.

Example interactive_enter_raises :
  interactive scenario [Key_RIGHT; Key_ENTER] = Raise AttributeError.
Proof. reflexivity. Qed.

Example gui_open_all_urls_scenario :
  Gui.open_all_urls {| Gui.df := scenario; Gui.row := 2; Gui.focused_url := None |}
  = Ok [lit "https://www.c.example"].
Proof. reflexivity. Qed.

(** * Main results *)

(** ** URL detection and normalization *)

(** C1, as the code has it.  For every input string, [normalize_url]
    finds the first occurrence of a token that begins, whatever the
    case, with [http://] or [https://] at a word start (the start of
    the string, or after a character that is not a word character),
    or with [www.] anywhere, followed by one or more characters that
    are neither white space, nor an angle bracket, nor a double quote,
    taken as far as such characters go.  It returns that token, with
    [https://] put in front when the token begins with [www.] and
    unchanged otherwise, and returns no URL when there is no such
    occurrence.  The three examples of the specification hold. *)
Theorem normalize_url_first_match :
  (forall s : str,
     match normalize_url s with
     | Some u =>
         exists l tok r,
           Spec.first_occurrence_b s l tok r /\ u = Spec.canonical tok
     | None => forall l tok r, ~ Spec.occurs_b s l tok r
     end)
  /\ normalize_url (lit "Contact: https://example.com/a?b=1 thanks")
     = Some (lit "https://example.com/a?b=1")
  /\ normalize_url (lit "see www.example.org")
     = Some (lit "https://www.example.org")
  /\ normalize_url (lit "no link here") = None.
Proof.
  split; [|repeat split; reflexivity].
  intros s. rewrite normalize_url_search.
  pose proof (search_from_spec s None) as S.
  destruct (Re.search_from None s) as [tok|]; cbn [option_map].
  - destruct S as (l & r & E & T & M & Hmin).
    exists l, tok, r. split; [|reflexivity].
    split; [split; assumption|]. split; [exact M|].
    intros l' tok' r' [E' T']. now apply (Hmin l' tok' r').
  - intros l tok r [E T]. exact (S l tok r E T).
Qed.

(** C1, as the specification words it, fails: the input [xhttp://a.b]
    holds a token that begins with [http://] and is followed by
    characters of the class, so that detection as worded yields
    [http://a.b]; [normalize_url] yields no URL, because the token
    does not start at a word boundary. *)
Lemma normalize_url_skips_glued_http :
  Spec.occurs (lit "xhttp://a.b") (lit "x") (lit "http://a.b") []
  /\ Spec.normalize_url (lit "xhttp://a.b") = Some (lit "http://a.b")
  /\ normalize_url (lit "xhttp://a.b") = None.
Proof.
  split; [|split; reflexivity].
  split; [reflexivity|]. left.
  exists (lit "http://"), (lit "a.b").
  split; [reflexivity|]. split; [left; reflexivity|].
  split; [discriminate | repeat constructor].
Qed.

(** C10, as the code has it.  Whatever [normalize_url] returns begins,
    whatever the case, with [http://] or [https://] and holds no white
    space, no angle bracket and no double quote; and so does every URL
    of a record view that [row_lines] builds.  The URLs that the
    desktop viewer hands to the browser, from [open_all_urls] and from
    the buttons that [render_row] builds, do not come from
    [normalize_url]: each is the trimmed text of a cell, with
    [https://] put in front when that text begins with [www.]; they
    begin, whatever the case, with [http://] or [https://], and
    nothing is asked of the characters that follow. *)
Theorem normalize_url_openable :
  (forall s u : str, normalize_url s = Some u -> openable u)
  /\ (forall (df : DataFrame) (i : Z) (lines : list line) (idxs : list Z)
             (l : line) (u : str),
        row_lines df i = Ok (lines, idxs) ->
        In l lines -> url_of l = Some u -> openable u)
  /\ (forall (self : Gui.App) (us : list str) (u : str),
        Gui.open_all_urls self = Ok us -> In u us -> Gui.is_http u = true)
  /\ (forall (col : str) (v : cell) (l c u : str),
        Gui.render_cell col v = Gui.UrlValue l c u ->
        Gui.open_all_urls_detect v = Some u)
  /\ (forall (v : cell) (u : str),
        Gui.open_all_urls_detect v = Some u ->
        u = if startswith (lit "www.") (strip (py_str v))
            then lit "https://" ++ strip (py_str v)
            else strip (py_str v)).
Proof.
  split; [exact normalize_url_is_openable|].
  split; [intros df i lines idxs l u H; now apply (row_lines_urls df i lines idxs H)|].
  split; [|split].
  2: { intros col v l c u. unfold Gui.render_cell, Gui.open_all_urls_detect.
       destruct (is_nan v); [discriminate|]. rewrite <- gui_branches_agree.
       destruct (Gui.render_row_url (strip (py_str v))) as [u0|]; [|discriminate].
       destruct (truthy u0); [|discriminate]. intros H; now inversion H. }
  - intros self us u H Hin. unfold Gui.open_all_urls in H.
    destruct (nrows (Gui.df self) =? 0)%Z.
    + inversion H; subst. contradiction.
    + destruct (iloc (Gui.df self) (Gui.row self)) as [r|e]; [|discriminate].
      cbn [bind] in H.
      pose proof (open_all_urls_loop_http r _ [] us H (Forall_nil _)) as F.
      rewrite Forall_forall in F. now apply F.
  - intros v u. unfold Gui.open_all_urls_detect, Gui.open_all_urls_url.
    destruct (is_nan v); [discriminate|]. cbv zeta.
    destruct (startswith (lit "www.") (strip (py_str v))).
    + destruct (Gui.is_http (lit "https://" ++ strip (py_str v))); [|discriminate].
      intros H; now inversion H.
    + destruct (Gui.is_http (strip (py_str v))); [|discriminate].
      intros H; now inversion H.
Qed.

Lemma normalize_url_openable_witness :
  openable (lit "https://www.example.org")
  /\ Gui.is_http (lit "https://www.c.example") = true.
Proof.
  split.
  - apply (proj1 normalize_url_openable (lit "see www.example.org")).
    reflexivity.
  - apply (proj1 (proj2 (proj2 normalize_url_openable))
                 {| Gui.df := scenario; Gui.row := 2; Gui.focused_url := None |}
                 [lit "https://www.c.example"]).
    + reflexivity.
    + left. reflexivity.
Defined.

(** C10, as the specification words it, fails: for the cell text
    [www.a b <c>] the desktop viewer hands [https://www.a b <c>] to
    the browser, which holds white space and angle brackets, where
    [normalize_url] gives [https://www.a]. *)
Lemma gui_opens_unclean_url :
  Gui.open_all_urls {| Gui.df := single (CStr (lit "www.a b <c>"));
                       Gui.row := 0; Gui.focused_url := None |}
  = Ok [lit "https://www.a b <c>"]
  /\ ~ openable (lit "https://www.a b <c>")
  /\ normalize_url (to_str (CStr (lit "www.a b <c>"))) = Some (lit "https://www.a").
Proof.
  split; [reflexivity|]. split; [|reflexivity].
  intros [_ F]. rewrite Forall_forall in F.
  destruct (F " "%char) as [H _]; [|discriminate H].
  unfold lit. simpl. tauto.
Qed.

(** ** Record views *)

(** C8.  For every table with one cell per column in each row, and
    every row index within the table, [row_lines] returns a record
    view with one line per column of the table, in the order of the
    columns, each line carrying the label of its column and the URL
    that [normalize_url] finds in the string form of the cell of that
    column; the URL index list is strictly increasing; each index of
    the list refers to a line whose URL is present and not empty; the
    position of a column is in the list exactly when its cell holds a
    URL; and the list holds the positions of the lines that carry a
    URL, in the order of the lines. *)
Theorem row_lines_url_indices (df : DataFrame) (i : Z) :
  rectangular df -> row_in_range df i ->
  exists row lines idxs,
    iloc df i = Ok row
    /\ row_lines df i = Ok (lines, idxs)
    /\ Forall2 (fun col l =>
                  exists v, loc row col = Ok v
                            /\ label l = col
                            /\ url_of l = normalize_url (to_str v))
               (columns df) lines
    /\ StronglySorted Z.lt idxs
    /\ (forall j, In j idxs ->
                  exists l u, getitem lines j = Ok l /\ url_of l = Some u /\ u <> [])
    /\ (forall (j : nat) (col : str) (v : cell),
          nth_error (columns df) j = Some col -> loc row col = Ok v ->
          (In (Z.of_nat j) idxs <-> normalize_url (to_str v) <> None))
    /\ idxs = url_positions lines
    /\ map label lines = columns df.
Proof.
  intros R H. destruct (row_lines_total df i R H) as (lines & idxs & L).
  pose proof (row_lines_spec _ _ _ _ L) as (r & G & -> & F).
  exists (combine (columns df) r), lines, (url_positions lines).
  split; [unfold iloc; now rewrite G|]. split; [exact L|].
  split.
  { eapply Forall2_impl; [|exact F]. intros col l (v & Hv & ->).
    exists v. repeat split. exact Hv. }
  split; [apply url_positions_from_sorted|].
  split; [apply url_positions_getitem|].
  split.
  { intros j col v Hj Hv.
    destruct (Forall2_nth_error_l _ _ _ _ _ F Hj) as (l & Hl & v' & Hv' & ->).
    assert (v' = v) by congruence. subst v'.
    unfold url_positions. rewrite url_positions_from_In.
    rewrite Z.sub_0_r, Nat2Z.id, Hl.
    pose proof (nth_error_Some lines j) as B. rewrite Hl in B.
    unfold has_url, url_of, line_of. cbn [snd].
    destruct (normalize_url (to_str v)) as [u|] eqn:N.
    - pose proof (normalize_url_nonempty _ _ N) as Hu. split.
      + discriminate.
      + intros _. split.
        * unfold len. assert (j < List.length lines)%nat by (apply B; discriminate). lia.
        * eexists. split; [reflexivity|]. cbn [truthy_opt].
          destruct u; [congruence | reflexivity].
    - split; [|congruence].
      intros (_ & l & E & T). inversion E; subst. discriminate T. }
  split; [reflexivity|].
  clear - F. induction F as [|col l cols lines (v & _ & ->) _ IH]; simpl.
  - reflexivity.
  - now rewrite IH.
Qed.

Lemma row_lines_url_indices_witness :
  exists row lines idxs,
    iloc scenario 2 = Ok row
    /\ row_lines scenario 2 = Ok (lines, idxs)
    /\ Forall2 (fun col l =>
                  exists v, loc row col = Ok v
                            /\ label l = col
                            /\ url_of l = normalize_url (to_str v))
               (columns scenario) lines
    /\ StronglySorted Z.lt idxs
    /\ (forall j, In j idxs ->
                  exists l u, getitem lines j = Ok l /\ url_of l = Some u /\ u <> [])
    /\ (forall (j : nat) (col : str) (v : cell),
          nth_error (columns scenario) j = Some col -> loc row col = Ok v ->
          (In (Z.of_nat j) idxs <-> normalize_url (to_str v) <> None))
    /\ idxs = url_positions lines
    /\ map label lines = columns scenario.
Proof.
  apply (row_lines_url_indices scenario 2).
  - repeat constructor.
  - unfold row_in_range, nrows, len. simpl. lia.
Defined.

(** C3, as the code has it.  For every table, [row_lines] raises the
    out-of-range error when the row index is at or beyond the number
    of rows, or below its opposite; a negative index down to the
    opposite of the number of rows is taken from the end of the
    table, and gives the record view of that row. *)
Theorem row_lines_out_of_range (df : DataFrame) (i : Z) :
  ((nrows df <= i)%Z \/ (i < - nrows df)%Z -> row_lines df i = Raise IndexError)
  /\ ((- nrows df <= i < 0)%Z -> row_lines df i = row_lines df (i + nrows df)).
Proof.
  unfold row_lines, iloc, nrows. split.
  - intros [H|H].
    + now rewrite getitem_too_large.
    + now rewrite getitem_too_small.
  - intros H. now rewrite getitem_negative.
Qed.

Lemma row_lines_out_of_range_witness :
  row_lines scenario 3 = Raise IndexError
  /\ row_lines scenario (-1) = row_lines scenario (-1 + nrows scenario).
Proof.
  split.
  - apply (proj1 (row_lines_out_of_range scenario 3)). left.
    unfold nrows, len. simpl. lia.
  - apply (proj2 (row_lines_out_of_range scenario (-1))).
    unfold nrows, len. simpl. lia.
Defined.

(** C3, as the specification words it, fails: on the table of the
    scenario, which has three rows, the index -1 lies outside the
    range of the rows, and [row_lines] returns the record view of the
    last row instead of raising. *)
Lemma row_lines_negative_index_wraps :
  ~ row_in_range scenario (-1)
  /\ exists view,
       row_lines scenario (-1) = Ok view /\ row_lines scenario 2 = Ok view.
Proof.
  split.
  - unfold row_in_range. lia.
  - eexists. split; reflexivity.
Qed.

(** ** Navigation *)

(** C4.  For every table with at least one row (and one cell per
    column in each row), whatever keys for the next and for the
    previous record are typed from the start, the terminal viewer
    returns with its record cursor within the rows of the table; the
    key for the next record at the last record and the key for the
    previous record at the first one change nothing, and so does the
    key for the next record repeated at the last record.  The same
    holds of the record cursor of the desktop viewer under [prev_row]
    and [next_row]. *)
Theorem record_cursor_stays_in_range (df : DataFrame) :
  rectangular df -> (0 < nrows df)%Z ->
  (forall moves, exists st us,
      interactive df (map move_key moves)
      = Ok {| cursors := Some st; opened := us |}
      /\ row_in_range df (row_idx st))
  /\ (forall st, row_idx st = (nrows df - 1)%Z ->
                 handle_key df st Key_RIGHT = Ok (st, []))
  /\ (forall st, row_idx st = 0%Z -> handle_key df st Key_LEFT = Ok (st, []))
  /\ (forall st k, row_idx st = (nrows df - 1)%Z ->
        exists st' us, loop df st (repeat Key_RIGHT k) [] = Ok (st', us)
                       /\ row_idx st' = row_idx st)
  /\ (forall events, exists self us,
        GuiLoop.run {| Gui.df := df; Gui.row := 0; Gui.focused_url := None |}
                    events [] = Ok (self, us)
        /\ row_in_range df (Gui.row self))
  /\ (forall self, Gui.df self = df -> Gui.row self = (nrows df - 1)%Z ->
                   Gui.next_row self = Ok (self, None))
  /\ (forall self, Gui.df self = df -> Gui.row self = 0%Z ->
                   Gui.prev_row self = Ok (self, None)).
Proof.
  intros R N.
  assert (Hne : (nrows df =? 0)%Z = false) by (apply Z.eqb_neq; lia).
  repeat split.
  - intros moves. unfold interactive. rewrite Hne.
    destruct (loop_moves_ok df moves R {| row_idx := 0; url_focus_i := 0 |} [])
      as (st & -> & H).
    + unfold row_in_range. cbn [row_idx]. lia.
    + cbn [bind]. eauto.
  - intros st E. cbn [handle_key].
    destruct (Z.ltb_spec (row_idx st) (nrows df - 1)); [lia | reflexivity].
  - intros st E. cbn [handle_key].
    destruct (Z.gtb_spec (row_idx st) 0); [lia | reflexivity].
  - intros st k E. apply loop_rights_at_last; auto.
    unfold row_in_range. lia.
  - intros events.
    destruct (gui_run_ok events
                {| Gui.df := df; Gui.row := 0; Gui.focused_url := None |} [])
      as (self & us & E & Hd & H).
    + exact R.
    + unfold row_in_range. cbn [Gui.df Gui.row]. lia.
    + cbn [Gui.df] in Hd. rewrite Hd in H. eauto.
  - intros self <- E. unfold Gui.next_row. rewrite Hne.
    destruct (Z.ltb_spec (Gui.row self) (nrows (Gui.df self) - 1));
      [lia | reflexivity].
  - intros self <- E. unfold Gui.prev_row. rewrite Hne.
    destruct (Z.gtb_spec (Gui.row self) 0); [lia | reflexivity].
Qed.

Lemma record_cursor_stays_in_range_witness :
  exists st us,
    interactive scenario (map move_key [Next; Next; Next; Prev])
    = Ok {| cursors := Some st; opened := us |}
    /\ row_in_range scenario (row_idx st).
Proof.
  apply (record_cursor_stays_in_range scenario).
  - repeat constructor.
  - unfold nrows, len. simpl. lia.
Defined.

(** C7.  When the table has no row, [draw] shows the message for the
    empty table and returns, whatever the cursors; the terminal viewer
    then ends its session without cursors, having opened nothing,
    whatever keys are typed; in the desktop viewer, [render_row] shows
    the empty state, [prev_row], [next_row] and [open_all_urls] change
    nothing and open nothing, and after such a table is loaded every
    sequence of key events leaves the state as it is and opens
    nothing.  None of these raises. *)
Theorem empty_table_is_inert (df : DataFrame) :
  nrows df = 0%Z ->
  (forall r f, draw df r f = Ok (ScreenEmpty, 0%Z))
  /\ (forall keys, interactive df keys = Ok {| cursors := None; opened := [] |})
  /\ (forall self, Gui.df self = df ->
        Gui.render_row self = Ok (self, Gui.RenderedEmpty)
        /\ Gui.prev_row self = Ok (self, None)
        /\ Gui.next_row self = Ok (self, None)
        /\ Gui.open_all_urls self = Ok [])
  /\ (forall self0,
        let self := {| Gui.df := df; Gui.row := 0; Gui.focused_url := None |} in
        Gui.load_current_sheet self0 (Some df) = Ok (self, Gui.RenderedEmpty)
        /\ Gui.open_focused_url self = []
        /\ forall events, GuiLoop.run self events [] = Ok (self, [])).
Proof.
  intros N.
  assert (D : forall r f, draw df r f = Ok (ScreenEmpty, 0%Z)).
  { intros r f. unfold draw. now rewrite N. }
  split; [exact D|]. split; [|split].
  - intros keys. unfold interactive. now rewrite N, D.
  - intros self <-.
    unfold Gui.render_row, Gui.prev_row, Gui.next_row, Gui.open_all_urls.
    rewrite N. repeat split; reflexivity.
  - intros self0 self. split; [|split].
    + unfold Gui.load_current_sheet, Gui.render_row. cbn [Gui.df].
      now rewrite N.
    + reflexivity.
    + intros events. now apply gui_run_empty.
Qed.

Lemma empty_table_is_inert_witness :
  interactive {| columns := [lit "name"]; rows := [] |} [Key_RIGHT; Key_TAB; Key_ENTER]
  = Ok {| cursors := None; opened := [] |}.
Proof.
  apply (proj1 (proj2 (empty_table_is_inert
                         {| columns := [lit "name"]; rows := [] |} eq_refl))).
Defined.

(** C5, as far as the code goes.  Whenever the key for the next or for
    the previous record changes the record cursor, the viewer sets
    [url_focus_i] to 0, whatever it was; the focus it then shows is
    position 0 of the URL index list of the new record when that
    record has a URL field, and none otherwise.  On the table of the
    scenario (three rows, two columns; one URL field in row 0, none in
    row 1, two in row 2) the states are (0, 0) at the start, (1, none)
    and (2, 0) after the next-record key typed once and twice, and
    (0, 0) after the previous-record key typed twice, and still (0, 0)
    after it is typed once more.  The step of the trace that cycles
    the URL focus is not made: at the tabulation key the session
    raises, the name [curses.KEY_TAB] being looked up and not
    found. *)
Theorem row_change_resets_url_focus :
  (forall df st st' us ch lines idxs,
      ch = Key_RIGHT \/ ch = Key_LEFT ->
      handle_key df st ch = Ok (st', us) ->
      row_idx st' <> row_idx st ->
      row_lines df (row_idx st') = Ok (lines, idxs) ->
      url_focus_i st' = 0%Z
      /\ engine_state df st'
         = Ok (row_idx st', if truthy idxs then Some 0%Z else None)
      /\ (exists scr, draw df (row_idx st') (url_focus_i st') = Ok (scr, 0%Z))
      /\ (idxs = [] ->
          draw df (row_idx st') (url_focus_i st')
          = Ok (ScreenRow (map (fun l => (l, false)) lines) None, 0%Z)))
  /\ map (fun r => option_map (fun v => len (snd v))
                     (match row_lines scenario r with
                      | Ok v => Some v
                      | Raise _ => None
                      end))
         [0; 1; 2]%Z
     = [Some 1; Some 0; Some 2]%Z
  /\ state_after scenario [] = Ok (0, Some 0)%Z
  /\ state_after scenario [Key_RIGHT] = Ok (1, None)%Z
  /\ state_after scenario [Key_RIGHT; Key_RIGHT] = Ok (2, Some 0)%Z
  /\ state_after scenario [Key_RIGHT; Key_RIGHT; Key_TAB] = Raise AttributeError
  /\ interactive scenario [Key_RIGHT; Key_RIGHT; Key_TAB] = Raise AttributeError
  /\ state_after scenario [Key_RIGHT; Key_RIGHT; Key_LEFT; Key_LEFT]
     = Ok (0, Some 0)%Z
  /\ state_after scenario [Key_RIGHT; Key_RIGHT; Key_LEFT; Key_LEFT; Key_LEFT]
     = Ok (0, Some 0)%Z.
Proof.
  split; [|repeat split; reflexivity].
  intros df st st' us ch lines idxs Hch H Hrow L.
  assert (F : url_focus_i st' = 0%Z).
  { destruct Hch as [-> | ->]; cbn [handle_key] in H.
    - destruct (_ <? _)%Z; inversion H; subst; [reflexivity | congruence].
    - destruct (_ >? _)%Z; inversion H; subst; [reflexivity | congruence]. }
  split; [exact F|]. split; [|split].
  - unfold engine_state, url_focus. rewrite L, F. reflexivity.
  - destruct (draw_ok df (row_idx st') (url_focus_i st') lines idxs L) as (scr & D).
    exists scr. rewrite D, F. do 2 f_equal.
    unfold clamp_focus. destruct idxs as [|i idxs]; [reflexivity|].
    cbn [truthy]. unfold len. cbn [List.length]. lia.
  - intros ->. rewrite (draw_no_focus df _ _ lines L), F. reflexivity.
Qed.

Lemma row_change_resets_url_focus_witness :
  url_focus_i {| row_idx := 1; url_focus_i := 0 |} = 0%Z
  /\ engine_state scenario {| row_idx := 1; url_focus_i := 0 |}
     = Ok (1%Z, None)
  /\ (exists scr, draw scenario 1 0 = Ok (scr, 0%Z))
  /\ (@nil Z = [] ->
      draw scenario 1 0
      = Ok (ScreenRow
              (map (fun l => (l, false))
                   [(lit "name", lit "Bob", None);
                    (lit "site", lit "(empty)", None)])
              None, 0%Z)).
Proof.
  apply (proj1 row_change_resets_url_focus scenario
               {| row_idx := 2; url_focus_i := 1 |}
               {| row_idx := 1; url_focus_i := 0 |}
               [] Key_LEFT
               [(lit "name", lit "Bob", None); (lit "site", lit "(empty)", None)]
               []).
  - right. reflexivity.
  - reflexivity.
  - cbn [row_idx]. lia.
  - reflexivity.
Defined.

(** C6, as the code has it.  The branch of the tabulation key would
    change nothing when the URL index list of the current record is
    empty, and otherwise move the URL focus to the next position,
    modulo the length of the list.  The branch is never entered: its
    test looks the name [curses.KEY_TAB] up, which the module does not
    have, so that the tabulation key raises whatever the cursors, and
    ends the session with that error after any moves of the record
    cursor; no key cycles the URL focus. *)
Theorem tab_key_raises (df : DataFrame) (st : nav) :
  handle_key df st Key_TAB = Raise AttributeError
  /\ (rectangular df -> row_in_range df (row_idx st) ->
      forall moves keys opened,
        loop df st (map move_key moves ++ Key_TAB :: keys) opened
        = Raise AttributeError)
  /\ (rectangular df -> (0 < nrows df)%Z ->
      forall moves keys,
        interactive df (map move_key moves ++ Key_TAB :: keys)
        = Raise AttributeError)
  /\ (forall lines idxs,
        row_lines df (row_idx st) = Ok (lines, idxs) ->
        (idxs = [] -> on_TAB df st = Ok (st, []))
        /\ (idxs <> [] ->
            on_TAB df st
            = Ok ({| row_idx := row_idx st;
                     url_focus_i := (url_focus_i st + 1) mod len idxs |}, []))).
Proof.
  split; [reflexivity|]. split; [|split].
  - intros R H moves keys opened.
    apply loop_moves_then_raises; auto.
  - intros R N moves keys. unfold interactive.
    assert (Hne : (nrows df =? 0)%Z = false) by (apply Z.eqb_neq; lia).
    rewrite Hne, loop_moves_then_raises; auto.
    unfold row_in_range. cbn [row_idx]. lia.
  - intros lines idxs L. unfold on_TAB. rewrite L. cbn [bind]. split.
    + intros ->. reflexivity.
    + intros Hne. destruct idxs; [congruence | reflexivity].
Qed.

Lemma tab_key_raises_witness :
  interactive scenario (map move_key [Next; Next] ++ Key_TAB :: [Key_TAB])
  = Raise AttributeError.
Proof.
  apply (proj1 (proj2 (proj2 (tab_key_raises
                                scenario {| row_idx := 0; url_focus_i := 0 |})))).
  - repeat constructor.
  - unfold nrows, len. simpl. lia.
Defined.

(** ** The two front ends *)




(** ** Cell values *)




(** * Further properties *)

(** ** [normalize_url] *)

Lemma search_from_prepend_spaces (ws t : str) :
  spaces ws ->
  forall prev, Re.word_before prev = false ->
               Re.search_from prev (ws ++ t) = Re.search_from prev t.
Proof.
  induction 1 as [|c ws Hc _ IH]; intros prev W; [reflexivity|].
  simpl app. rewrite search_from_unfold, (match_here_space prev c _ Hc).
  rewrite IH by (simpl; now apply isspace_not_word).
  apply search_from_prev. simpl. rewrite W. now apply isspace_not_word.
Qed.

(** X1.  [normalize_url] is idempotent: a URL that it returns is
    returned as it is when it is normalized again. *)
Theorem normalize_url_idempotent (s u : str) :
  normalize_url s = Some u -> normalize_url u = Some u.
Proof.
  intros H. apply normalize_url_token in H as (prev & tok & T & ->).
  assert (Hu : Spec.http_token (Spec.canonical tok)
               /\ Spec.canonical (Spec.canonical tok) = Spec.canonical tok).
  { destruct T as [[T _]|T].
    - destruct (canonical_http _ T) as [-> _]. split; [exact T|].
      now destruct (canonical_http _ T).
    - rewrite (canonical_www _ T).
      assert (T' : Spec.http_token (lit "https://" ++ tok)).
      { exists (lit "https://"), tok. split; [reflexivity|].
        split; [now right|]. split.
        - destruct T as (p & run & -> & Hp & _). destruct p; discriminate.
        - now apply www_token_chars. }
      split; [exact T'|]. now destruct (canonical_http _ T'). }
  destruct Hu as [T' E].
  assert (S : strip (Spec.canonical tok) = Spec.canonical tok).
  { apply strip_no_space, url_chars_no_space. now apply http_token_chars. }
  rewrite normalize_url_whole_token; rewrite S.
  - now rewrite E.
  - left. split; [exact T' | reflexivity].
Qed.

Lemma normalize_url_idempotent_witness :
  normalize_url (lit "https://www.example.org") = Some (lit "https://www.example.org").
Proof.
  apply (normalize_url_idempotent (lit "see www.example.org")). reflexivity.
Defined.

(** X2.  White space around the text does not change what
    [normalize_url] finds. *)
Theorem normalize_url_ignores_outer_space (ws1 s ws2 : str) :
  spaces ws1 -> spaces ws2 ->
  normalize_url (ws1 ++ s ++ ws2) = normalize_url s.
Proof.
  intros H1 H2. rewrite !normalize_url_search.
  rewrite search_from_prepend_spaces by auto.
  now rewrite search_from_extend.
Qed.

Lemma normalize_url_ignores_outer_space_witness :
  normalize_url (lit "  " ++ lit "see www.example.org" ++ lit " ")
  = normalize_url (lit "see www.example.org").
Proof.
  apply normalize_url_ignores_outer_space; repeat constructor.
Defined.

(** ** [draw] *)




Lemma draw_focused (df : DataFrame) (r f : Z) (lines : list line) (idxs : list Z) :
  row_lines df r = Ok (lines, idxs) -> idxs <> [] ->
  exists j l u,
    getitem idxs (clamp_focus idxs f) = Ok j
    /\ (0 <= j < len lines)%Z
    /\ getitem lines j = Ok l
    /\ url_of l = Some u
    /\ draw df r f
       = Ok (ScreenRow (map (fun p => (snd p, (fst p =? j)%Z)) (enumerate 0 lines))
                       (Some (label l)),
             clamp_focus idxs f).
Proof.
  intros H Hne. pose proof (row_lines_Ok_nonempty _ _ _ H) as Hn.
  pose proof (row_lines_spec _ _ _ _ H) as (r0 & _ & Hidx & _).
  pose proof (clamp_focus_in_range idxs f Hne) as Hr.
  destruct (getitem_in_range idxs _ Hr) as (j & Hj & _).
  assert (Hin : In j (url_positions lines)).
  { rewrite <- Hidx. eapply getitem_In; eauto. }
  pose proof Hin as Hin'.
  apply url_positions_from_In in Hin' as (Hjr & l & Hn0 & Hl).
  rewrite Z.sub_0_r in Hn0.
  assert (Hg : getitem lines j = Ok l)
    by (rewrite getitem_nonneg, Hn0 by lia; reflexivity).
  unfold has_url in Hl. destruct (url_of l) as [u|] eqn:Hu; [|discriminate].
  exists j, l, u. split; [exact Hj|]. split; [lia|].
  split; [exact Hg|]. split; [exact Hu|].
  unfold draw. rewrite Hn, H. cbn [bind].
  assert (T : truthy idxs = true) by (destruct idxs; [congruence | reflexivity]).
  assert (C : Z.max 0 (Z.min f (len idxs - 1)) = clamp_focus idxs f)
    by (unfold clamp_focus; now rewrite T).
  rewrite T. cbn [negb bind]. rewrite C, Hj. cbn [bind].
  rewrite Hj. cbn [bind]. rewrite Hg. cbn [bind].
  do 3 f_equal.
  apply map_ext_in. intros [i [[col shown] url]] Hi. cbn [fst snd].
  destruct (Z.eqb_spec i j) as [->|]; [|reflexivity].
  apply enumerate_In in Hi as [_ Hi]. rewrite Z.sub_0_r, Hn0 in Hi.
  inversion Hi; subst. unfold url_of in Hu. cbn [snd] in Hu. now rewrite Hu.
Qed.

Lemma clamp_focus_idempotent (idxs : list Z) (f : Z) :
  clamp_focus idxs (clamp_focus idxs f) = clamp_focus idxs f.
Proof.
  destruct idxs as [|i idxs]; [reflexivity|].
  apply clamp_focus_id. left. apply clamp_focus_in_range. discriminate.
Qed.




(** On a terminal of five rows the second line of the last record of
    the scenario, which has the focus, is not drawn, and nothing is
    highlighted. *)
Example draw_clips_focused_line :
  exists shown,
    draw scenario 2 1 = Ok (ScreenRow shown (Some (lit "site")), 1%Z)
    /\ visible 5 2 shown
       = ([((lit "name", lit "www.c.example", Some (lit "https://www.c.example")),
            false)], true).
Proof. eexists. split; reflexivity. Qed.

(** X4.  Drawing again with the focus that [draw] returned gives the
    same screen and the same focus. *)
Theorem draw_is_stable (df : DataFrame) (r f f' : Z) (scr : screen) :
  draw df r f = Ok (scr, f') -> draw df r f' = Ok (scr, f').
Proof.
  intros D. destruct (nrows df =? 0)%Z eqn:N.
  - unfold draw in *. rewrite N in *. inversion D; subst. reflexivity.
  - destruct (row_lines df r) as [[lines idxs]|e] eqn:L.
    + destruct idxs as [|i0 idxs'] eqn:E.
      * rewrite (draw_no_focus df r f lines L) in D. inversion D; subst.
        now apply draw_no_focus.
      * rewrite <- E in *.
        assert (Hne : idxs <> []) by (rewrite E; discriminate).
        destruct (draw_focused df r f lines idxs L Hne)
          as (j & l & u & Hj & _ & Hl & _ & D1).
        rewrite D1 in D. injection D as <- <-.
        destruct (draw_focused df r (clamp_focus idxs f) lines idxs L Hne)
          as (j' & l' & u' & Hj' & _ & Hl' & _ & D2).
        rewrite clamp_focus_idempotent in Hj', D2.
        assert (j' = j) by congruence. subst j'.
        assert (l' = l) by congruence. subst l'. exact D2.
    + unfold draw in D. rewrite N, L in D. discriminate.
Qed.

Lemma draw_is_stable_witness :
  draw scenario 2 1
  = Ok (ScreenRow
          [((lit "name", lit "www.c.example", Some (lit "https://www.c.example")),
            false);
           ((lit "site", lit "see http://d.example/x now",
             Some (lit "http://d.example/x")), true)]
          (Some (lit "site")), 1%Z).
Proof.
  apply (draw_is_stable scenario 2 9). reflexivity.
Defined.

(** ** The keys of the terminal viewer *)

Lemma draw_Ok_row_lines (df : DataFrame) (r f : Z) (v : screen * Z) :
  (nrows df =? 0)%Z = false -> draw df r f = Ok v ->
  exists lines idxs, row_lines df r = Ok (lines, idxs).
Proof.
  intros N D. unfold draw in D. rewrite N in D.
  destruct (row_lines df r) as [[lines idxs]|e]; [eauto | discriminate].
Qed.

Lemma clamp_focus_zero (idxs : list Z) : clamp_focus idxs 0 = 0%Z.
Proof.
  unfold clamp_focus. destruct idxs; cbn [truthy]; [reflexivity|].
  unfold len. cbn [List.length]. lia.
Qed.

Lemma draw_zero (df : DataFrame) (r f : Z) (scr : screen) :
  draw df r 0 = Ok (scr, f) -> f = 0%Z.
Proof.
  intros D. destruct (nrows df =? 0)%Z eqn:N.
  - unfold draw in D. rewrite N in D. now inversion D.
  - destruct (draw_Ok_row_lines df _ _ _ N D) as (lines & idxs & L).
    destruct (draw_ok df r 0 lines idxs L) as (scr' & D').
    rewrite D' in D. injection D as _ <-. apply clamp_focus_zero.
Qed.

(** The URL focus of a session that returns is 0 throughout. *)
Lemma loop_focus_zero (df : DataFrame) (keys : list key) :
  forall st opened st' us,
    url_focus_i st = 0%Z ->
    loop df st keys opened = Ok (st', us) -> url_focus_i st' = 0%Z.
Proof.
  induction keys as [|ch keys IH]; intros st opened st' us Z H; cbn [loop] in H.
  - rewrite Z in H.
    destruct (draw df (row_idx st) 0) as [[scr f]|e] eqn:D; [|discriminate].
    cbn [bind] in H. inversion H; subst. cbn [url_focus_i].
    exact (draw_zero _ _ _ _ D).
  - unfold loop_pass in H. rewrite Z in H.
    destruct (draw df (row_idx st) 0) as [[scr f]|e] eqn:D; [|discriminate].
    apply draw_zero in D. subst f. cbn [bind] in H.
    destruct ch; cbn [bind handle_key row_idx url_focus_i] in H.
    + inversion H; subst. reflexivity.
    + destruct (_ <? _)%Z; cbn [bind] in H; eapply IH; try exact H; reflexivity.
    + destruct (_ >? _)%Z; cbn [bind] in H; eapply IH; try exact H; reflexivity.
    + discriminate.
    + discriminate.
    + discriminate.
Qed.

(** X5.  The keys that the chain of tests reaches after the two move
    keys, among them the key that should open the focused URL, end the
    session with the error of the missing name [curses.KEY_TAB],
    whatever moves were made before and whatever is typed after; and a
    session that returns has handed no URL to the browser, whatever
    keys were typed. *)
Theorem keys_after_moves_raise (df : DataFrame) :
  (forall st ch,
      ch = Key_TAB \/ ch = Key_ENTER \/ ch = Key_other ->
      handle_key df st ch = Raise AttributeError)
  /\ (rectangular df -> (0 < nrows df)%Z ->
      forall moves ch keys,
        ch = Key_TAB \/ ch = Key_ENTER \/ ch = Key_other ->
        interactive df (map move_key moves ++ ch :: keys) = Raise AttributeError)
  /\ (forall keys out, interactive df keys = Ok out -> opened out = []).
Proof.
  split; [intros st ch; apply handle_key_raises|]. split.
  - intros R N moves ch keys Hch. unfold interactive.
    assert (Hne : (nrows df =? 0)%Z = false) by (apply Z.eqb_neq; lia).
    rewrite Hne, loop_moves_then_raises; auto.
    unfold row_in_range. cbn [row_idx]. lia.
  - intros keys out H. unfold interactive in H.
    destruct (nrows df =? 0)%Z.
    + destruct (draw df 0 0); [|discriminate]. cbn [bind] in H.
      now inversion H.
    + destruct (loop df _ keys []) as [[st us]|e] eqn:L; [|discriminate].
      cbn [bind] in H. inversion H; subst. cbn [opened].
      exact (loop_opens_nothing df keys _ _ _ _ L).
Qed.

Lemma keys_after_moves_raise_witness :
  interactive scenario (map move_key [Next; Next] ++ Key_ENTER :: [Key_q])
  = Raise AttributeError
  /\ opened {| cursors := Some {| row_idx := 2; url_focus_i := 0 |};
               opened := [] |} = [].
Proof.
  split.
  - apply (proj1 (proj2 (keys_after_moves_raise scenario))).
    + repeat constructor.
    + unfold nrows, len. simpl. lia.
    + right. left. reflexivity.
  - apply (proj2 (proj2 (keys_after_moves_raise scenario))
                 [Key_RIGHT; Key_RIGHT; Key_q; Key_ENTER]).
    reflexivity.
Defined.

(** X6.  On a table with at least one row, after every sequence of
    moves the session returns with a URL focus that lies within the
    URL index list of the current record, and is 0 when that record
    has no URL field; and whatever keys are typed, a session that
    returns ends with the URL focus at 0, no key having moved it. *)
Theorem url_focus_stays_in_range (df : DataFrame) :
  (rectangular df -> (0 < nrows df)%Z ->
   forall moves, exists st us lines idxs,
     interactive df (map move_key moves)
     = Ok {| cursors := Some st; opened := us |}
     /\ row_lines df (row_idx st) = Ok (lines, idxs)
     /\ (0 <= url_focus_i st < Z.max 1 (len idxs))%Z)
  /\ (forall keys out st,
        interactive df keys = Ok out -> cursors out = Some st ->
        url_focus_i st = 0%Z /\ focus_in_range df st).
Proof.
  assert (Z : forall keys out st,
             interactive df keys = Ok out -> cursors out = Some st ->
             url_focus_i st = 0%Z).
  { intros keys out st H C. unfold interactive in H.
    destruct (nrows df =? 0)%Z.
    - destruct (draw df 0 0); [|discriminate]. cbn [bind] in H.
      inversion H; subst. discriminate C.
    - destruct (loop df _ keys []) as [[st1 us]|e] eqn:L; [|discriminate].
      cbn [bind] in H. inversion H; subst. cbn [cursors] in C.
      inversion C; subst.
      eapply loop_focus_zero; [|exact L]. reflexivity. }
  split.
  - intros R N moves.
    assert (Hne : (nrows df =? 0)%Z = false) by (apply Z.eqb_neq; lia).
    destruct (loop_moves_ok df moves R {| row_idx := 0; url_focus_i := 0 |} [])
      as (st & L & H).
    { unfold row_in_range. cbn [row_idx]. lia. }
    destruct (row_lines_total df (row_idx st) R H) as (lines & idxs & RL).
    exists st, [], lines, idxs.
    assert (I : interactive df (map move_key moves)
                = Ok {| cursors := Some st; opened := [] |}).
    { unfold interactive. rewrite Hne, L. reflexivity. }
    split; [exact I|]. split; [exact RL|].
    rewrite (Z _ _ st I eq_refl). lia.
  - intros keys out st H C. pose proof (Z keys out st H C) as F.
    split; [exact F|]. intros lines idxs _. rewrite F. lia.
Qed.

Lemma url_focus_stays_in_range_witness :
  exists st us lines idxs,
    interactive scenario (map move_key [Next; Next; Prev])
    = Ok {| cursors := Some st; opened := us |}
    /\ row_lines scenario (row_idx st) = Ok (lines, idxs)
    /\ (0 <= url_focus_i st < Z.max 1 (len idxs))%Z.
Proof.
  apply (proj1 (url_focus_stays_in_range scenario)).
  - repeat constructor.
  - unfold nrows, len. simpl. lia.
Defined.

Lemma loop_q_stops (df : DataFrame) (ks rest : list key) :
  forall st opened,
    loop df st (ks ++ Key_q :: rest) opened = loop df st ks opened.
Proof.
  induction ks as [|k ks IH]; intros st opened.
  - cbn [app loop]. unfold loop_pass.
    destruct (draw df (row_idx st) (url_focus_i st)) as [[scr f]|e]; reflexivity.
  - cbn [app loop]. destruct (loop_pass df st k) as [[st1 [us|]]|e];
      cbn [bind]; [apply IH | reflexivity | reflexivity].
Qed.

(** X7.  The key [q] ends the session: the keys typed after it are
    not read, and the session ends in the state it was waiting in. *)
Theorem q_ends_the_session (df : DataFrame) (ks rest : list key) :
  interactive df (ks ++ Key_q :: rest) = interactive df ks.
Proof.
  unfold interactive. destruct (nrows df =? 0)%Z; [reflexivity|].
  now rewrite loop_q_stops.
Qed.

(** X8.  Going to the next record and back, or to the previous record
    and back, returns to the same record with the URL focus reset to
    0: the position reached with the tabulation key is forgotten. *)
Theorem there_and_back_resets_focus (df : DataFrame) (st : nav) :
  rectangular df -> row_in_range df (row_idx st) ->
  ((row_idx st < nrows df - 1)%Z ->
   loop df st [Key_RIGHT; Key_LEFT] []
   = Ok ({| row_idx := row_idx st; url_focus_i := 0 |}, []))
  /\ ((0 < row_idx st)%Z ->
      loop df st [Key_LEFT; Key_RIGHT] []
      = Ok ({| row_idx := row_idx st; url_focus_i := 0 |}, [])).
Proof.
  intros R H. unfold row_in_range in H.
  destruct (row_lines_total df (row_idx st) R H) as (lines & idxs & L).
  destruct (draw_ok df (row_idx st) (url_focus_i st) lines idxs L) as (scr & D).
  destruct (draw_ok df (row_idx st) 0 lines idxs L) as (scr0 & D0).
  rewrite clamp_focus_zero in D0.
  split; intros B.
  - assert (H1 : row_in_range df (row_idx st + 1)) by (unfold row_in_range; lia).
    destruct (row_lines_total df _ R H1) as (lines1 & idxs1 & L1).
    destruct (draw_ok df (row_idx st + 1) 0 lines1 idxs1 L1) as (scr1 & D1).
    rewrite clamp_focus_zero in D1.
    cbn [loop]. unfold loop_pass. rewrite D.
    cbn [bind handle_key row_idx url_focus_i].
    destruct (Z.ltb_spec (row_idx st) (nrows df - 1)); [|lia].
    cbn [bind row_idx url_focus_i]. rewrite D1.
    cbn [bind handle_key row_idx url_focus_i].
    destruct (Z.gtb_spec (row_idx st + 1) 0); [|lia].
    cbn [bind row_idx url_focus_i].
    replace (row_idx st + 1 - 1)%Z with (row_idx st) by lia.
    rewrite D0. reflexivity.
  - assert (H1 : row_in_range df (row_idx st - 1)) by (unfold row_in_range; lia).
    destruct (row_lines_total df _ R H1) as (lines1 & idxs1 & L1).
    destruct (draw_ok df (row_idx st - 1) 0 lines1 idxs1 L1) as (scr1 & D1).
    rewrite clamp_focus_zero in D1.
    cbn [loop]. unfold loop_pass. rewrite D.
    cbn [bind handle_key row_idx url_focus_i].
    destruct (Z.gtb_spec (row_idx st) 0); [|lia].
    cbn [bind row_idx url_focus_i]. rewrite D1.
    cbn [bind handle_key row_idx url_focus_i].
    destruct (Z.ltb_spec (row_idx st - 1) (nrows df - 1)); [|lia].
    cbn [bind row_idx url_focus_i].
    replace (row_idx st - 1 + 1)%Z with (row_idx st) by lia.
    rewrite D0. reflexivity.
Qed.

Lemma there_and_back_resets_focus_witness :
  loop scenario {| row_idx := 2; url_focus_i := 1 |} [Key_LEFT; Key_RIGHT] []
  = Ok ({| row_idx := 2; url_focus_i := 0 |}, []).
Proof.
  apply (proj2 (there_and_back_resets_focus scenario
                  {| row_idx := 2; url_focus_i := 1 |}
                  ltac:(repeat constructor)
                  ltac:(unfold row_in_range, nrows, len; simpl; lia))).
  cbn [row_idx]. lia.
Defined.

(** ** The desktop viewer: what is rendered and what is opened *)

Lemma render_cell_button (col : str) (v : cell) :
  GuiMore.button_urls [Gui.render_cell col v]
  = match Gui.open_all_urls_detect v with Some u => [u] | None => [] end.
Proof.
  unfold Gui.render_cell, Gui.open_all_urls_detect.
  destruct (is_nan v); [reflexivity|].
  rewrite <- gui_branches_agree.
  destruct (Gui.render_row_url (strip (py_str v))) as [u|] eqn:E; [|reflexivity].
  destruct (render_row_url_shape _ _ E) as [_ ->]. reflexivity.
Qed.

Lemma open_all_urls_loop_buttons (r : Series) (cols : list str) :
  forall ws urls,
    Gui.render_row_loop r cols = Ok ws ->
    Gui.open_all_urls_loop r cols urls = Ok (urls ++ GuiMore.button_urls ws).
Proof.
  induction cols as [|col cols IH]; intros ws urls H;
    cbn [Gui.render_row_loop Gui.open_all_urls_loop] in *.
  - inversion H; subst. now rewrite app_nil_r.
  - destruct (loc r col) as [v|e]; [|discriminate]. cbn [bind] in *.
    destruct (Gui.render_row_loop r cols) as [ws'|e] eqn:E; [|discriminate].
    cbn [bind] in H. inversion H; subst.
    change (Gui.render_cell col v :: ws') with ([Gui.render_cell col v] ++ ws').
    assert (B : forall a b, GuiMore.button_urls (a ++ b)
                            = GuiMore.button_urls a ++ GuiMore.button_urls b).
    { clear. induction a as [|[l c|l c u] a IHa]; intros b; simpl;
        [reflexivity | apply IHa | now rewrite IHa]. }
    rewrite B, render_cell_button.
    destruct (Gui.open_all_urls_detect v) as [u|].
    + rewrite (IH ws' (urls ++ [u]) eq_refl). now rewrite <- app_assoc.
    + now rewrite (IH ws' urls eq_refl).
Qed.

(** X9.  [open_all_urls] opens exactly the URLs for which [render_row]
    shows a button in the current record, in the order of the columns;
    on an empty table both show and open nothing. *)
Theorem open_all_urls_opens_the_buttons
        (self self' : Gui.App) (out : Gui.rendered) :
  Gui.render_row self = Ok (self', out) ->
  Gui.open_all_urls self = Ok (GuiMore.rendered_urls out).
Proof.
  unfold Gui.render_row, Gui.open_all_urls.
  destruct (nrows (Gui.df self) =? 0)%Z.
  - intros H; inversion H; subst. reflexivity.
  - cbn [Gui.df Gui.row].
    destruct (iloc (Gui.df self) (Gui.row self)) as [r|e]; [|discriminate].
    cbn [bind].
    destruct (Gui.render_row_loop r (columns (Gui.df self))) as [ws|e] eqn:E;
      [|discriminate].
    cbn [bind]. intros H; inversion H; subst.
    rewrite (open_all_urls_loop_buttons r _ ws [] E). reflexivity.
Qed.

Lemma open_all_urls_opens_the_buttons_witness :
  Gui.open_all_urls {| Gui.df := scenario; Gui.row := 0; Gui.focused_url := None |}
  = Ok [lit "https://a.example/"].
Proof.
  apply (open_all_urls_opens_the_buttons
           {| Gui.df := scenario; Gui.row := 0; Gui.focused_url := None |}
           {| Gui.df := scenario; Gui.row := 0; Gui.focused_url := None |}
           (Gui.RenderedRow
              [Gui.Value (lit "name") (lit "Ann");
               Gui.UrlValue (lit "site") (lit "https://a.example/")
                            (lit "https://a.example/")])).
  reflexivity.
Defined.

Lemma selectable_value_nonempty (text : str) : Gui.selectable_value text <> [].
Proof. unfold Gui.selectable_value. destruct text; discriminate. Qed.

Lemma render_row_loop_widgets (r : Series) (cols : list str) :
  forall ws,
    Gui.render_row_loop r cols = Ok ws ->
    map GuiMore.widget_label ws = cols
    /\ Forall (fun w => GuiMore.widget_content w <> []) ws
    /\ Forall (fun w => match w with
                        | Gui.UrlValue _ c u => c = u /\ Gui.is_http u = true
                        | Gui.Value _ _ => True
                        end) ws.
Proof.
  induction cols as [|col cols IH]; intros ws H; cbn [Gui.render_row_loop] in H.
  - inversion H; subst. repeat split; constructor.
  - destruct (loc r col) as [v|e]; [|discriminate]. cbn [bind] in H.
    destruct (Gui.render_row_loop r cols) as [ws'|e]; [|discriminate].
    cbn [bind] in H. inversion H; subst.
    destruct (IH ws' eq_refl) as (I1 & I2 & I3).
    assert (C : GuiMore.widget_label (Gui.render_cell col v) = col
                /\ GuiMore.widget_content (Gui.render_cell col v) <> []
                /\ match Gui.render_cell col v with
                   | Gui.UrlValue _ c u => c = u /\ Gui.is_http u = true
                   | Gui.Value _ _ => True
                   end).
    { unfold Gui.render_cell. destruct (is_nan v).
      - repeat split. discriminate.
      - destruct (Gui.render_row_url (strip (py_str v))) as [u|] eqn:E.
        + destruct (render_row_url_shape _ _ E) as [Hh Ht]. rewrite Ht.
          cbn [GuiMore.widget_label GuiMore.widget_content].
          unfold Gui.selectable_value. rewrite Ht.
          repeat split; auto. destruct u; [discriminate Ht | discriminate].
        + cbn [GuiMore.widget_label GuiMore.widget_content].
          repeat split. apply selectable_value_nonempty. }
    destruct C as (C1 & C2 & C3).
    cbn [map]. rewrite C1, I1. repeat split; auto.
Qed.

(** X10.  For a table with one cell per column in each row and a
    record cursor within it, [render_row] returns one widget per
    column, in the order of the columns; no widget is empty (a
    missing or blank value shows the marker); and a widget with a
    button shows the URL that the button opens, which begins, whatever
    the case, with [http://] or [https://].  It clears the focused
    URL. *)
Theorem render_row_widgets (self : Gui.App) :
  rectangular (Gui.df self) -> row_in_range (Gui.df self) (Gui.row self) ->
  exists ws,
    Gui.render_row self
    = Ok ({| Gui.df := Gui.df self; Gui.row := Gui.row self;
             Gui.focused_url := None |}, Gui.RenderedRow ws)
    /\ map GuiMore.widget_label ws = columns (Gui.df self)
    /\ Forall (fun w => GuiMore.widget_content w <> []) ws
    /\ Forall (fun w => match w with
                        | Gui.UrlValue _ c u => c = u /\ Gui.is_http u = true
                        | Gui.Value _ _ => True
                        end) ws.
Proof.
  intros R H. unfold Gui.render_row.
  assert (Hn : (nrows (Gui.df self) =? 0)%Z = false).
  { apply Z.eqb_neq. unfold row_in_range in H. lia. }
  rewrite Hn. cbn [Gui.df Gui.row].
  destruct (iloc_total _ _ R H) as (r & -> & F). cbn [bind].
  destruct (render_row_loop_total r _ F) as (ws & E). rewrite E. cbn [bind].
  exists ws. split; [reflexivity|]. now apply (render_row_loop_widgets r).
Qed.

Lemma render_row_widgets_witness :
  exists ws,
    Gui.render_row {| Gui.df := scenario; Gui.row := 1;
                      Gui.focused_url := Some (lit "https://a.example/") |}
    = Ok ({| Gui.df := scenario; Gui.row := 1; Gui.focused_url := None |},
          Gui.RenderedRow ws)
    /\ map GuiMore.widget_label ws = columns scenario
    /\ Forall (fun w => GuiMore.widget_content w <> []) ws
    /\ Forall (fun w => match w with
                        | Gui.UrlValue _ c u => c = u /\ Gui.is_http u = true
                        | Gui.Value _ _ => True
                        end) ws.
Proof.
  apply (render_row_widgets
           {| Gui.df := scenario; Gui.row := 1;
              Gui.focused_url := Some (lit "https://a.example/") |}).
  - repeat constructor.
  - unfold row_in_range, nrows, len. simpl. lia.
Defined.



(** ** [choose_palatino_family] *)

Lemma mem_In (c : str) (available : list str) :
  GuiMore.mem c available = true <-> In c available.
Proof.
  unfold GuiMore.mem. rewrite existsb_exists. split.
  - intros (x & Hx & E). apply str_eqb_eq in E. now subst.
  - intros H. exists c. split; [exact H | now apply str_eqb_eq].
Qed.

Lemma choose_from_first (available cs : list str) :
  (exists pre post,
      cs = pre ++ GuiMore.choose_from available cs :: post
      /\ In (GuiMore.choose_from available cs) available
      /\ Forall (fun x => ~ In x available) pre)
  \/ (Forall (fun x => ~ In x available) cs
      /\ GuiMore.choose_from available cs = lit "Serif").
Proof.
  induction cs as [|c cs IH]; cbn [GuiMore.choose_from].
  - right. split; [constructor | reflexivity].
  - destruct (GuiMore.mem c available) eqn:M.
    + left. exists [], cs. split; [reflexivity|].
      split; [now apply mem_In | constructor].
    + assert (N : ~ In c available).
      { intros H. apply mem_In in H. congruence. }
      destruct IH as [(pre & post & E & Hin & F)|[F E]].
      * left. exists (c :: pre), post. split; [simpl; now rewrite <- E|].
        split; [exact Hin | now constructor].
      * right. split; [now constructor | exact E].
Qed.

(** X12.  [choose_palatino_family] returns the first candidate that
    the toolkit lists, in the order of preference of the source; when
    the toolkit lists none of them it returns [Serif] all the same.
    In every case the family returned is one of the candidates. *)
Theorem choose_palatino_family_first_available (available : list str) :
  In (GuiMore.choose_palatino_family available) GuiMore.candidates
  /\ ((exists pre post,
          GuiMore.candidates
          = pre ++ GuiMore.choose_palatino_family available :: post
          /\ In (GuiMore.choose_palatino_family available) available
          /\ Forall (fun x => ~ In x available) pre)
      \/ (Forall (fun x => ~ In x available) GuiMore.candidates
          /\ GuiMore.choose_palatino_family available = lit "Serif")).
Proof.
  unfold GuiMore.choose_palatino_family.
  pose proof (choose_from_first available GuiMore.candidates) as H.
  split; [|exact H].
  destruct H as [(pre & post & E & _)|[_ ->]].
  - rewrite E at 2. apply in_or_app. right. now left.
  - unfold GuiMore.candidates. simpl. intuition.
Qed.

(** ** Stripping *)

Lemma lstrip_idempotent (s : str) : lstrip (lstrip s) = lstrip s.
Proof.
  induction s as [|c s IH]; [reflexivity|]. simpl.
  destruct (isspace c) eqn:E; [exact IH|]. simpl. now rewrite E.
Qed.

Lemma lstrip_head (s : str) :
  match lstrip s with
  | [] => True
  | c :: _ => isspace c = false
  end.
Proof.
  induction s as [|c s IH]; [exact I|]. simpl.
  destruct (isspace c) eqn:E; [exact IH | exact E].
Qed.

Lemma lstrip_rstrip (t : str) :
  match t with [] => True | c :: _ => isspace c = false end ->
  lstrip (rstrip t) = rstrip t.
Proof.
  intros H. destruct (rstrip_split t) as (ws & E & _).
  destruct (rstrip t) as [|c r]; [reflexivity|].
  rewrite E in H. simpl in H. simpl. now rewrite H.
Qed.

(** Stripping is idempotent, and what it returns neither begins nor
    ends with white space. *)
Lemma strip_idempotent (s : str) :
  strip (strip s) = strip s
  /\ match strip s with [] => True | c :: _ => isspace c = false end
  /\ match rev (strip s) with [] => True | c :: _ => isspace c = false end.
Proof.
  assert (I : strip (strip s) = strip s).
  { unfold strip. rewrite (lstrip_rstrip (lstrip s)) by apply lstrip_head.
    unfold rstrip. now rewrite rev_involutive, lstrip_idempotent. }
  split; [exact I|]. split.
  - unfold strip. pose proof (lstrip_rstrip (lstrip s) (lstrip_head s)) as E.
    rewrite <- E. apply lstrip_head.
  - unfold strip, rstrip. rewrite rev_involutive. apply lstrip_head.
Qed.

Lemma strip_trimmed (s : str) : trimmed (strip s).
Proof. unfold trimmed. now destruct (strip_idempotent s) as (_ & H1 & H2). Qed.

(** ** The sheet selector of [load_xlsx] *)

Lemma digits_isdigit (s : str) :
  Forall (fun c => in_range 48 57 c = true) s ->
  forallb Sheet.isdigit_char s = true.
Proof.
  induction 1 as [|c s Hc _ IH]; [reflexivity|].
  simpl. unfold Sheet.isdigit_char at 1. now rewrite Hc, IH.
Qed.

Lemma nilzero_uint (d : Decimal.uint) :
  exists d',
    NilEmpty.uint_of_string (NilZero.string_of_uint d) = Some d'
    /\ Z.of_uint d' = Z.of_uint d
    /\ NilZero.string_of_uint d <> EmptyString
    /\ Forall (fun c => in_range 48 57 c = true)
              (list_ascii_of_string (NilZero.string_of_uint d)).
Proof.
  destruct d;
    try (eexists; split; [apply NilEmpty.usu|];
         split; [reflexivity|]; split; [discriminate|];
         apply (uint_digits (_ d))).
  exists (Decimal.D0 Decimal.Nil). repeat split; try discriminate.
  repeat constructor.
Qed.

(** X13.  The sheet selector of [load_xlsx]: the decimal rendering of
    a position that is not negative selects that position (the text
    being within the length that the conversion accepts); a selector
    taken for a position passes the digit test, is not empty, and
    gives a position that is not negative; a selector on which the
    digit test fails is passed as a sheet name, unchanged, and these
    are the only selectors passed as names; so the rendering of a
    negative number is a name, not a position. *)
Theorem sheet_selector :
  (forall n, (0 <= n)%Z ->
             (List.length (str_of_int n) <= Sheet.max_str_digits)%nat ->
             Sheet.selector (str_of_int n) = Some (Sheet.Index n))
  /\ (forall s n, Sheet.selector s = Some (Sheet.Index n) ->
                  Sheet.isdigit s = true /\ s <> [] /\ (0 <= n)%Z)
  /\ (forall s, Sheet.isdigit s = false ->
                Sheet.selector s = Some (Sheet.Name s))
  /\ (forall s s', Sheet.selector s = Some (Sheet.Name s') ->
                   s' = s /\ Sheet.isdigit s = false)
  /\ (forall n, (n < 0)%Z ->
                Sheet.selector (str_of_int n) = Some (Sheet.Name (str_of_int n))).
Proof.
  split; [|split; [|split; [|split]]].
  - intros n Hn Hlen. unfold Sheet.selector, str_of_int in *.
    assert (exists d, Z.to_int n = Decimal.Pos d /\ Z.of_uint d = n) as (d & E & V).
    { pose proof (DecimalZ.of_to n) as O. destruct n as [|p|p]; [| |lia];
        simpl in *; eauto. }
    rewrite E in *. cbn [NilZero.string_of_int] in *.
    destruct (nilzero_uint d) as (d' & P & V' & Ne & F).
    assert (D : Sheet.isdigit (list_ascii_of_string (NilZero.string_of_uint d)) = true).
    { unfold Sheet.isdigit. rewrite (digits_isdigit _ F).
      destruct (NilZero.string_of_uint d); [congruence | reflexivity]. }
    rewrite D. unfold Sheet.int_of_digits.
    destruct (Nat.ltb_spec Sheet.max_str_digits
                (List.length (list_ascii_of_string (NilZero.string_of_uint d))));
      [lia|].
    rewrite string_of_list_ascii_of_string, P. cbn [option_map].
    now rewrite V', V.
  - intros s n H. unfold Sheet.selector in H.
    destruct (Sheet.isdigit s) eqn:D; [|discriminate].
    unfold Sheet.int_of_digits in H.
    destruct (_ <? _)%nat; [discriminate|].
    destruct (NilEmpty.uint_of_string (string_of_list_ascii s)) as [d|] eqn:P;
      [|discriminate].
    cbn [option_map] in H. inversion H; subst. split; [reflexivity|]. split.
    + intros ->. discriminate D.
    + unfold Z.of_uint. apply N2Z.is_nonneg.
  - intros s D. unfold Sheet.selector. now rewrite D.
  - intros s s' H. unfold Sheet.selector in H.
    destruct (Sheet.isdigit s) eqn:D.
    + destruct (Sheet.int_of_digits s); discriminate.
    + inversion H; subst. auto.
  - intros n Hn. destruct n as [|p|p]; [lia | lia |].
    unfold Sheet.selector, str_of_int. simpl Z.to_int.
    cbn [NilZero.string_of_int list_ascii_of_string]. reflexivity.
Qed.

Lemma sheet_selector_witness :
  Sheet.selector (str_of_int 2) = Some (Sheet.Index 2)
  /\ Sheet.selector (lit "Sheet 1") = Some (Sheet.Name (lit "Sheet 1"))
  /\ Sheet.selector (str_of_int (-1)) = Some (Sheet.Name (str_of_int (-1))).
Proof.
  split; [|split].
  - apply (proj1 sheet_selector 2%Z); [lia | vm_compute; lia].
  - apply (proj1 (proj2 (proj2 sheet_selector)) (lit "Sheet 1")). reflexivity.
  - apply (proj2 (proj2 (proj2 (proj2 sheet_selector))) (-1)%Z). lia.
Defined.

(** ** Trimmed values in the desktop viewer *)







(** ** The column printer *)

Lemma forallb_mem (cs labels : list str) :
  forallb (fun c => GuiMore.mem c labels) cs = true
  <-> forall c, In c cs -> In c labels.
Proof.
  rewrite forallb_forall. split; intros H c Hc.
  - now apply mem_In, H.
  - now apply mem_In, H.
Qed.

Lemma pick_total (row : Series) (cs : list str) :
  Forall (fun c => exists v, loc row c = Ok v) cs ->
  exists vs, CsvPrinter.pick row cs = Ok vs /\ List.length vs = List.length cs.
Proof.
  induction 1 as [|c cs (v & Hv) _ (vs & IH & L)]; cbn [CsvPrinter.pick].
  - exists []. split; reflexivity.
  - rewrite Hv, IH. cbn [bind]. exists (v :: vs). split; [reflexivity|].
    simpl. now rewrite L.
Qed.

Lemma pick_rows_total (labels cs : list str) (rs : list (list cell)) :
  (forall c, In c cs -> In c labels) ->
  Forall (fun r => List.length r = List.length labels) rs ->
  exists rs',
    CsvPrinter.pick_rows labels cs rs = Ok rs'
    /\ List.length rs' = List.length rs
    /\ Forall (fun r => List.length r = List.length cs) rs'.
Proof.
  intros Hc. induction 1 as [|r rs Hr _ (rs' & IH & L & F)];
    cbn [CsvPrinter.pick_rows].
  - exists []. repeat split; constructor.
  - destruct (pick_total (combine labels r) cs) as (vs & P & Lv).
    { apply Forall_forall. intros c Hin. apply loc_combine; auto. }
    rewrite P, IH. cbn [bind]. exists (vs :: rs').
    split; [reflexivity|]. split; [simpl; now rewrite L|]. now constructor.
Qed.

Lemma print_fields_lines (row : Series) (cs : list str) :
  Forall (fun c => exists v, loc row c = Ok v) cs ->
  exists out,
    CsvPrinter.print_fields row cs = Ok out
    /\ Forall (is_field_line cs) out.
Proof.
  induction 1 as [|c cs (v & Hv) _ (out & IH & F)]; cbn [CsvPrinter.print_fields].
  - exists []. split; [reflexivity | constructor].
  - rewrite Hv, IH. cbn [bind]. eexists. split; [reflexivity|].
    apply Forall_app. split.
    + destruct (is_nan v); cbn [negb]; [constructor|].
      destruct (strip (py_str v)) as [|a t] eqn:E; cbn [truthy]; [constructor|].
      constructor; [|constructor].
      exists c, (a :: t). split; [now left|]. split; [reflexivity|].
      split; [discriminate|]. rewrite <- E. apply strip_trimmed.
    + eapply Forall_impl; [|exact F].
      intros l (c' & v' & Hin & El & Hne & T).
      exists c', v'. split; [now right | auto].
Qed.

Lemma print_rows_blocks (rs : list (list cell)) :
  Forall (fun r => List.length r = List.length CsvPrinter.cols) rs ->
  exists blocks,
    CsvPrinter.print_rows CsvPrinter.cols rs = Ok (blocks_output blocks)
    /\ Forall (fun b => b <> [] /\ Forall (is_field_line CsvPrinter.cols) b) blocks
    /\ (List.length blocks <= List.length rs)%nat.
Proof.
  induction 1 as [|r rs Hr _ (blocks & IH & F & L)]; cbn [CsvPrinter.print_rows].
  - exists []. repeat split; [constructor | apply Nat.le_refl].
  - destruct (print_fields_lines (combine CsvPrinter.cols r) CsvPrinter.cols)
      as (out & P & Fo).
    { apply Forall_forall. intros c Hin. apply loc_combine; auto. }
    unfold CsvPrinter.print_row. rewrite P. cbn [bind]. rewrite IH. cbn [bind].
    destruct out as [|l out]; cbn [truthy].
    + exists blocks. split; [reflexivity|]. split; [exact F|].
      simpl. now apply Nat.le_le_succ_r.
    + exists ((l :: out) :: blocks). split; [reflexivity|].
      split; [constructor; [split; [discriminate | exact Fo] | exact F]|].
      simpl. now apply le_n_S.
Qed.

(** X15.  The column printer: when the sheet lacks one of the seven
    columns, the selection raises and nothing is printed; otherwise
    (each row having one cell per column) the output is a sequence of
    blocks, one for each row that has a value to print and none for
    the others, each block being one or more field lines followed by
    the separator line; a field line is the label of one of the seven
    columns, a colon and a space, and a value that is not empty and
    is trimmed.  A separator line is thus never printed first, nor
    right after another. *)
Theorem csv_printer_output (df : DataFrame) :
  ((exists c, In c CsvPrinter.cols /\ ~ In c (columns df)) ->
   CsvPrinter.main df = Raise KeyError)
  /\ (rectangular df ->
      (forall c, In c CsvPrinter.cols -> In c (columns df)) ->
      exists blocks,
        CsvPrinter.main df = Ok (blocks_output blocks)
        /\ Forall (fun b => b <> [] /\ Forall (is_field_line CsvPrinter.cols) b)
                  blocks
        /\ (List.length blocks <= List.length (rows df))%nat).
Proof.
  unfold CsvPrinter.main, CsvPrinter.select. split.
  - intros (c & Hc & Hn).
    destruct (forallb _ CsvPrinter.cols) eqn:E; [|reflexivity].
    exfalso. apply Hn. eapply forallb_mem; eauto.
  - intros R Hc. rewrite (proj2 (forallb_mem CsvPrinter.cols (columns df)) Hc).
    destruct (pick_rows_total (columns df) CsvPrinter.cols (rows df) Hc R)
      as (rs' & P & L & F).
    rewrite P. cbn [bind columns rows].
    destruct (print_rows_blocks rs' F) as (blocks & E & Fb & Lb).
    exists blocks. split; [exact E|]. split; [exact Fb | lia].
Qed.

Example csv_printer_leads :
  CsvPrinter.main leads
  = Ok [lit "Full Name: Ann Lee"; lit "Job Title: CTO";
        lit "-----------------------"].
Proof. reflexivity. Qed.

Lemma csv_printer_output_witness :
  CsvPrinter.main scenario = Raise KeyError
  /\ exists blocks,
       CsvPrinter.main leads = Ok (blocks_output blocks)
       /\ Forall (fun b => b <> [] /\ Forall (is_field_line CsvPrinter.cols) b)
                 blocks
       /\ (List.length blocks <= List.length (rows leads))%nat.
Proof.
  split.
  - apply (proj1 (csv_printer_output scenario)).
    exists (lit "Full Name"). split; [now left|].
    intros [H|[H|[]]]; discriminate H.
  - apply (proj2 (csv_printer_output leads)).
    + repeat constructor.
    + intros c H. exact H.
Defined.

(** ** More on record views *)

(** X16.  In a record view, a line carries a URL exactly when its
    position is in the URL index list; the URL is then not empty, so
    that the truth test that builds the list and marks the line, and
    the test for [None] that allows the highlight, agree on every
    line. *)
Theorem url_index_list_is_complete
        (df : DataFrame) (i : Z) (lines : list line) (idxs : list Z) :
  row_lines df i = Ok (lines, idxs) ->
  (forall j, (0 <= j)%Z ->
             (In j idxs <-> exists l u, getitem lines j = Ok l /\ url_of l = Some u))
  /\ Forall (fun l => has_url l = is_some (url_of l)) lines.
Proof.
  intros H.
  assert (F : Forall (fun l => has_url l = is_some (url_of l)) lines).
  { apply Forall_forall. intros l Hin. unfold has_url.
    destruct (url_of l) as [u|] eqn:E; [|reflexivity].
    destruct (row_lines_urls df i lines idxs H l u Hin E) as [Hs _].
    destruct u; [discriminate Hs | reflexivity]. }
  split; [|exact F].
  pose proof (row_lines_spec _ _ _ _ H) as (r & _ & -> & _).
  intros j Hj. unfold url_positions. rewrite url_positions_from_In.
  rewrite Z.sub_0_r, Z.add_0_l. rewrite Forall_forall in F. split.
  - intros (Hr & l & Hn & Hl). rewrite (F l) in Hl by (eapply nth_error_In; eauto).
    destruct (url_of l) as [u|] eqn:E; [|discriminate].
    exists l, u. split; [|exact E]. now rewrite getitem_nonneg, Hn by lia.
  - intros (l & u & Hg & Hu). rewrite getitem_nonneg in Hg by lia.
    destruct (nth_error lines (Z.to_nat j)) as [l'|] eqn:Hn; [|discriminate].
    inversion Hg; subst.
    assert (nth_error lines (Z.to_nat j) <> None) as N by congruence.
    apply nth_error_Some in N. split; [unfold len; lia|].
    exists l. split; [reflexivity|].
    rewrite (F l) by (eapply nth_error_In; eauto). now rewrite Hu.
Qed.

Lemma url_index_list_is_complete_witness :
  (forall j, (0 <= j)%Z ->
             (In j [1%Z] <->
              exists l u,
                getitem [(lit "name", lit "Ann", None);
                         (lit "site", lit "https://a.example/",
                          Some (lit "https://a.example/"))] j = Ok l
                /\ url_of l = Some u))
  /\ Forall (fun l => has_url l = is_some (url_of l))
            [(lit "name", lit "Ann", None);
             (lit "site", lit "https://a.example/", Some (lit "https://a.example/"))].
Proof.
  apply (url_index_list_is_complete scenario 0). reflexivity.
Defined.

(** ** Loading a sheet in the desktop viewer *)

(** X17.  [load_current_sheet] forgets the cursor and the focused URL
    of the sheet shown before: it starts at record 0 without a
    focused URL.  When the sheet cannot be read, or has no row, it
    shows the empty state without raising, and every key event after
    it leaves the state as it is and opens nothing. *)
Theorem load_current_sheet_resets (self0 : Gui.App) :
  (forall d, rectangular d -> (0 < nrows d)%Z ->
             exists ws,
               Gui.load_current_sheet self0 (Some d)
               = Ok ({| Gui.df := d; Gui.row := 0; Gui.focused_url := None |},
                     Gui.RenderedRow ws))
  /\ (forall loaded,
        loaded = None \/ (exists d, loaded = Some d /\ nrows d = 0%Z) ->
        exists self,
          Gui.load_current_sheet self0 loaded = Ok (self, Gui.RenderedEmpty)
          /\ Gui.row self = 0%Z
          /\ Gui.focused_url self = None
          /\ forall events, GuiLoop.run self events [] = Ok (self, [])).
Proof.
  split.
  - intros d R N. unfold Gui.load_current_sheet.
    destruct (render_row_widgets
                {| Gui.df := d; Gui.row := 0; Gui.focused_url := None |})
      as (ws & E & _).
    + exact R.
    + unfold row_in_range. cbn [Gui.df Gui.row]. lia.
    + exists ws. exact E.
  - intros loaded H. unfold Gui.load_current_sheet.
    set (d := match loaded with
              | Some d => d
              | None => {| columns := []; rows := [] |}
              end).
    assert (N : nrows d = 0%Z).
    { destruct H as [->|(d' & -> & N)]; [reflexivity | exact N]. }
    exists {| Gui.df := d; Gui.row := 0; Gui.focused_url := None |}.
    split; [|split; [reflexivity|split; [reflexivity|]]].
    + unfold Gui.render_row. cbn [Gui.df]. now rewrite N.
    + intros events. now apply gui_run_empty.
Qed.

Lemma load_current_sheet_resets_witness :
  (exists ws,
      Gui.load_current_sheet
        {| Gui.df := leads; Gui.row := 1;
           Gui.focused_url := Some (lit "https://a.example/") |}
        (Some scenario)
      = Ok ({| Gui.df := scenario; Gui.row := 0; Gui.focused_url := None |},
            Gui.RenderedRow ws))
  /\ exists self,
       Gui.load_current_sheet
         {| Gui.df := leads; Gui.row := 1;
            Gui.focused_url := Some (lit "https://a.example/") |} None
       = Ok (self, Gui.RenderedEmpty)
       /\ Gui.row self = 0%Z
       /\ Gui.focused_url self = None
       /\ forall events, GuiLoop.run self events [] = Ok (self, []).
Proof.
  split.
  - apply (proj1 (load_current_sheet_resets _) scenario).
    + repeat constructor.
    + unfold nrows, len. simpl. lia.
  - apply (proj2 (load_current_sheet_resets _) None). now left.
Defined.

(** ** The two front ends move alike *)

Lemma gui_handle_move (self : Gui.App) (m : move) :
  rectangular (Gui.df self) -> row_in_range (Gui.df self) (Gui.row self) ->
  exists fu,
    GuiLoop.handle self (move_event m)
    = Ok ({| Gui.df := Gui.df self;
             Gui.row := step_row (Gui.df self) m (Gui.row self);
             Gui.focused_url := fu |}, []).
Proof.
  intros R H. pose proof H as H0. unfold row_in_range in H0.
  assert (Hn : (nrows (Gui.df self) =? 0)%Z = false) by (apply Z.eqb_neq; lia).
  destruct m; cbn [move_event GuiLoop.handle step_row].
  - unfold Gui.next_row. rewrite Hn.
    destruct (Z.ltb_spec (Gui.row self) (nrows (Gui.df self) - 1)).
    + edestruct (render_row_ok
                   {| Gui.df := Gui.df self; Gui.row := Gui.row self + 1;
                      Gui.focused_url := Gui.focused_url self |}) as (out & E).
      * exact R.
      * unfold row_in_range. cbn [Gui.df Gui.row]. lia.
      * rewrite E. cbn [bind Gui.df Gui.row]. eauto.
    + cbn [bind]. exists (Gui.focused_url self). destruct self; reflexivity.
  - unfold Gui.prev_row. rewrite Hn.
    destruct (Z.gtb_spec (Gui.row self) 0).
    + edestruct (render_row_ok
                   {| Gui.df := Gui.df self; Gui.row := Gui.row self - 1;
                      Gui.focused_url := Gui.focused_url self |}) as (out & E).
      * exact R.
      * unfold row_in_range. cbn [Gui.df Gui.row]. lia.
      * rewrite E. cbn [bind Gui.df Gui.row]. eauto.
    + cbn [bind]. exists (Gui.focused_url self). destruct self; reflexivity.
Qed.

Lemma moves_agree (df : DataFrame) (moves : list move) :
  rectangular df ->
  forall st self opened opened',
    Gui.df self = df ->
    row_in_range df (row_idx st) ->
    row_idx st = Gui.row self ->
    exists st' us self' us',
      loop df st (map move_key moves) opened = Ok (st', us)
      /\ GuiLoop.run self (map move_event moves) opened' = Ok (self', us')
      /\ row_idx st' = Gui.row self'.
Proof.
  intros R. induction moves as [|m moves IH]; intros st self opened opened' Hd H E.
  - destruct (loop_wait_ok df st opened R H) as (f & L).
    eexists _, opened, self, opened'. split; [exact L|]. split; [reflexivity|].
    exact E.
  - destruct (loop_pass_move df st m R H) as (f & P).
    subst df.
    assert (H' : row_in_range (Gui.df self) (Gui.row self)) by now rewrite <- E.
    destruct (gui_handle_move self m R H') as (fu & G).
    cbn [map loop GuiLoop.run]. rewrite P, G. cbn [bind].
    apply IH.
    + reflexivity.
    + cbn [row_idx]. now apply step_row_in_range.
    + cbn [row_idx Gui.row]. now rewrite E.
Qed.

(** X18.  On a table with at least one row, the same sequence of moves
    to the next and to the previous record leaves the record cursor of
    the terminal viewer and that of the desktop viewer on the same
    record. *)
Theorem front_ends_move_alike (df : DataFrame) (moves : list move) :
  rectangular df -> (0 < nrows df)%Z ->
  exists st us self us',
    interactive df (map move_key moves)
    = Ok {| cursors := Some st; opened := us |}
    /\ GuiLoop.run {| Gui.df := df; Gui.row := 0; Gui.focused_url := None |}
                   (map move_event moves) [] = Ok (self, us')
    /\ row_idx st = Gui.row self.
Proof.
  intros R N.
  assert (Hne : (nrows df =? 0)%Z = false) by (apply Z.eqb_neq; lia).
  destruct (moves_agree df moves R {| row_idx := 0; url_focus_i := 0 |}
              {| Gui.df := df; Gui.row := 0; Gui.focused_url := None |} [] [])
    as (st & us & self & us' & L & G & E).
  - reflexivity.
  - unfold row_in_range. cbn [row_idx]. lia.
  - reflexivity.
  - exists st, us, self, us'. split; [|split; [exact G | exact E]].
    unfold interactive. rewrite Hne, L. reflexivity.
Qed.

Lemma front_ends_move_alike_witness :
  exists st us self us',
    interactive scenario (map move_key [Next; Next; Next; Prev])
    = Ok {| cursors := Some st; opened := us |}
    /\ GuiLoop.run {| Gui.df := scenario; Gui.row := 0; Gui.focused_url := None |}
                   (map move_event [Next; Next; Next; Prev]) [] = Ok (self, us')
    /\ row_idx st = Gui.row self.
Proof.
  apply (front_ends_move_alike scenario).
  - repeat constructor.
  - unfold nrows, len. simpl. lia.
Defined.
